(** * A shallow embedding of the stack decoder of [part2.py]

    The decoder translates a source sentence [f] (a tuple of tokens) with a
    phrase table [tm] and a language model [lm], both external to the file,
    by beam search over stacks of recombined hypotheses.  A state may leave
    one source span untranslated (the gap) and fill it in later.

    Python integers are modelled as [Z], Python floats as the binary64
    floats of [PrimFloat], [str] as [string], tuples of tokens as lists,
    dictionaries as [gmap]s, and exceptions by the [result] monad. *)

From Stdlib Require Import Floats Ascii String.
From stdpp Require Import gmap strings list fin_maps sorting.

Local Open Scope Z_scope.

(** ** Exceptions *)

(** The exceptions of the decoder: a failed dictionary lookup,
    a list index out of range, [max] of an empty sequence, an attribute
    of [None], and calls nested beyond the recursion limit of the
    interpreter. *)
Inductive exn : Set :=
  KeyError | IndexError | ValueError | AttributeError | RuntimeError.

Inductive result (A : Type) : Type :=
  | Ok (a : A)
  | Raise (e : exn).
Arguments Ok {A} a.
Arguments Raise {A} e.

Definition rbind {A B : Type} (m : result A) (k : A → result B) : result B :=
  match m with
  | Ok a => k a
  | Raise e => Raise e
  end.

Notation "x ←! m ; k" := (rbind m (fun x => k))
  (at level 20, m at level 100, k at level 200, only parsing).

(** A [for] loop threading a state through a body that may raise. *)
Fixpoint for_each {A B : Type} (body : A → B → result A) (a : A)
    (l : list B) : result A :=
  match l with
  | [] => Ok a
  | x :: l' => a' ←! body a x; for_each body a' l'
  end.

(** ** Python built-ins used by the decoder *)

Definition len {A : Type} (l : list A) : Z := Z.of_nat (length l).

(** [xrange(a, b)]: the integers [a, a+1, ..., b-1]. *)
Definition xrange (a b : Z) : list Z := seqZ a (b - a).

(** Slice bounds are first shifted by the length when negative and then
    clipped to [0 .. len]. *)
Definition adjust_index (n idx : Z) : Z :=
  let idx' := if idx <? 0 then idx + n else idx in
  if idx' <? 0 then 0 else if n <? idx' then n else idx'.

(** [l[lo:hi]] *)
Definition pyslice {A : Type} (l : list A) (lo hi : Z) : list A :=
  let lo' := adjust_index (len l) lo in
  let hi' := adjust_index (len l) hi in
  take (Z.to_nat (hi' - lo')) (drop (Z.to_nat lo') l).

(** The position [l[j]] refers to: negative indices count from the end,
    anything outside the list raises [IndexError]. *)
Definition list_position {A : Type} (l : list A) (j : Z) : result nat :=
  let j' := if j <? 0 then j + len l else j in
  if (0 <=? j') && (j' <? len l) then Ok (Z.to_nat j') else Raise IndexError.

(** Whitespace as [str.split()] sees it: space, tab, newline, vertical tab,
    form feed and carriage return. *)
Definition is_space (c : ascii) : bool :=
  let n := nat_of_ascii c in
  bool_decide (n = 32%nat) || (Nat.leb 9 n && Nat.leb n 13).

(** [s.split()]: the maximal runs of non-whitespace characters of [s].
    [cur] holds the characters of the current run, last one first. *)
Fixpoint split_go (cur : list ascii) (s : string) : list string :=
  match s with
  | EmptyString =>
      match cur with
      | [] => []
      | _ => [string_of_list_ascii (rev cur)]
      end
  | String c s' =>
      if is_space c then
        match cur with
        | [] => split_go [] s'
        | _ => string_of_list_ascii (rev cur) :: split_go [] s'
        end
      else split_go (c :: cur) s'
  end.

Definition split (s : string) : list string := split_go [] s.

(** ** Data model *)

(** [models.phrase]: a target phrase and its translation-model score. *)
Record phrase : Type := Phrase {
  english : string;
  phrase_logprob : float;
}.

(** The phrase table: a dictionary from tuples of source tokens to lists of
    candidate phrases. *)
Abbreviation TM := (gmap (list string) (list phrase)).

(** The copy fallback for unknown tokens: every token of the input without
    a one-token entry gets the entry that copies it with log-probability 0.
    [set(sum(french,()))] is a set; the list without duplicates stands for
    it, and [inject_oov_lookup] shows that its order does not matter. *)
Definition inject_word (tm : TM) (word : string) : TM :=
  match tm !! [word] with
  | Some _ => tm
  | None => <[ [word] := [Phrase word 0%float] ]> tm
  end.

Definition inject_oov (tm : TM) (french : list (list string)) : TM :=
  foldl inject_word tm (remove_dups (concat french)).

(** [state]: field [i] is the rightmost translated word, [gap] the pair of
    indices of the pending gap (if any), [lm_state] the language-model
    history.  The type [C] of histories belongs to the language model. *)
Record state (C : Type) : Type := State {
  i : Z;
  gap : option (Z * Z);
  lm_state : C;
}.
Arguments State {C} i gap lm_state.
Arguments i {C} s.
Arguments gap {C} s.
Arguments lm_state {C} s.

#[export] Instance state_eq_dec {C} `{EqDecision C} : EqDecision (state C).
Proof. solve_decision. Defined.

#[export] Program Instance state_countable {C} `{Countable C} :
  Countable (state C) :=
  inj_countable' (fun s => (i s, gap s, lm_state s))
                 (fun t => State t.1.1 t.1.2 t.2) _.
Next Obligation. by intros C ? ? []. Qed.

(** [hypothesis]: a node of the search graph.  The root has neither a
    predecessor nor a phrase. *)
#[warnings="-register-all"]
Inductive hypothesis (C : Type) : Type := Hyp {
  logprob : float;
  predecessor : option (hypothesis C);
  h_phrase : option phrase;
  h_state : state C;
}.
Arguments Hyp {C} logprob predecessor h_phrase h_state.
Arguments logprob {C} h.
Arguments predecessor {C} h.
Arguments h_phrase {C} h.
Arguments h_state {C} h.

(** [sorted(l, key=key)]: a stable sort that compares keys with [<] only.
    An element moves in front of its right neighbours exactly as long as
    their key is strictly smaller.  On keys that [<] orders totally (no
    NaN) every stable sort, Python's included, returns this list. *)
Fixpoint sorted_insert {A : Type} (key : A → float) (x : A) (l : list A)
    : list A :=
  match l with
  | [] => [x]
  | y :: l' =>
      if (key y <? key x)%float then y :: sorted_insert key x l'
      else x :: y :: l'
  end.

Definition sorted {A : Type} (key : A → float) (l : list A) : list A :=
  foldr (sorted_insert key) [] l.

(** [a] may stand before [b] in a list that descends by [value]. *)
Definition not_below {A : Type} (value : A → float) (a b : A) : Prop :=
  (value a <? value b)%float = false.

(** [max(l, key=key)]: the first element whose key no later key exceeds;
    [ValueError] on an empty sequence. *)
Fixpoint max_go {A : Type} (key : A → float) (best : A) (l : list A) : A :=
  match l with
  | [] => best
  | x :: l' => max_go key (if (key best <? key x)%float then x else best) l'
  end.

Definition py_max {A : Type} (key : A → float) (l : list A) : result A :=
  match l with
  | [] => Raise ValueError
  | x :: l' => Ok (max_go key x l')
  end.

(** [extract_english(h)]: the target phrases along the predecessor chain,
    root first, each followed by a space.  The function calls itself once
    for every predecessor, and Python raises [RuntimeError] when calls nest
    beyond its recursion limit; [depth] is the number of calls the
    interpreter still lets nest inside this one. *)
Fixpoint extract_english {C : Type} (depth : nat) (h : hypothesis C)
    {struct h} : result string :=
  match h with
  | Hyp _ None _ _ => Ok EmptyString
  | Hyp _ (Some p) ph _ =>
      match depth with
      | O => Raise RuntimeError
      | S depth' =>
          e ←! extract_english depth' p;
          match ph with
          | Some ph => Ok (e +:+ english ph +:+ " ")
          | None => Raise AttributeError
          end
      end
  end.

(** [extract_tm_logprob(h)]: the translation-model scores of the phrases
    along the predecessor chain.  [h.phrase.logprob] is evaluated before
    the recursive call, which is subject to the recursion limit as in
    [extract_english]. *)
Fixpoint extract_tm_logprob {C : Type} (depth : nat) (h : hypothesis C)
    {struct h} : result float :=
  match h with
  | Hyp _ None _ _ => Ok 0%float
  | Hyp _ (Some p) ph _ =>
      match ph with
      | Some ph =>
          match depth with
          | O => Raise RuntimeError
          | S depth' =>
              rest ←! extract_tm_logprob depth' p;
              Ok (phrase_logprob ph + rest)%float
          end
      | None => Raise AttributeError
      end
  end.

(** Lines 124-129: the three numbers of the verbose report, [LM], [TM] and
    [Total]. *)
Definition score_report {C : Type} (depth : nat) (winner : hypothesis C)
    : result (float * float * float) :=
  tm_logprob ←! extract_tm_logprob depth winner;
  Ok ((logprob winner - tm_logprob)%float, tm_logprob, logprob winner).

(** The phrases along the predecessor chain of [h], root first. *)
Fixpoint chain_phrases {C : Type} (h : hypothesis C) : list phrase :=
  match h with
  | Hyp _ None _ _ => []
  | Hyp _ (Some p) ph _ =>
      chain_phrases p ++ match ph with
                         | Some ph => [ph]
                         | None => []
                         end
  end.

(** The language model [lm]: its type [C] of histories, [lm.begin()],
    [lm.score(lm_state, word)] and [lm.end(lm_state)]. *)
Record LM (C : Type) : Type := {
  lm_begin : C;
  lm_score : C → string → C * float;
  lm_end : C → float;
}.
Arguments lm_begin {C} lm : rename.
Arguments lm_score {C} lm lm_state word : rename.
Arguments lm_end {C} lm lm_state : rename.

(** ** The decoder *)

Section Decoder.

Context {C : Type} `{Countable C}.

(** The language model, the phrase table after the copy fallback, and
    [opts.s], the maximum stack size. *)
Variable lm : LM C.
Variable tm : TM.
Variable opts_s : Z.

(** A stack is a dictionary from states to hypotheses. *)
Abbreviation stack := (gmap (state C) (hypothesis C)).

(** [d.itervalues()]: the values of a dictionary in the order the
    dictionary happens to store them.  Python fixes no order, so the
    order is a parameter of the model. *)
Variable itervalues : stack → list (hypothesis C).

(** The number of calls of a function that the interpreter lets nest
    inside a call made by the body of the script.  The script leaves the
    recursion limit of the interpreter as it is, so the number is a
    parameter of the model. *)
Variable max_depth : nat.

Definition initial_state : state C := State 0 None (lm_begin lm).

Definition assign_stack (s : state C) : Z :=
  i s - match gap s with
        | None => 0
        | Some g => g.2 - g.1
        end.

Definition add_log_probs (lm_state : C) (ph : phrase) (eos : bool)
    : C * float :=
  let '(lm_state, logprob) :=
    foldl (fun '(lm_state, logprob) word =>
             let '(lm_state, word_logprob) := lm_score lm lm_state word in
             (lm_state, (logprob + word_logprob)%float))
          (lm_state, phrase_logprob ph) (split (english ph)) in
  (lm_state, (logprob + (if eos then lm_end lm lm_state else 0))%float).

(** One yielded tuple [(new_s, logprob, phrase)]. *)
Definition extension : Type := state C * float * phrase.

(** The tuple yielded for [ph] when the new state has coverage index
    [new_i] and gap [new_gap]. *)
Definition yield_for (s : state C) (new_i : Z) (new_gap : option (Z * Z))
    (eos : bool) (ph : phrase) : extension :=
  let '(lm_state, logprob) := add_log_probs (lm_state s) ph eos in
  (State new_i new_gap lm_state, logprob, ph).

(** [extend_state(s, f)], as the list of what the generator yields.  The
    only statement that can raise is the lookup [tm[...]] of case 3, and
    it is evaluated before anything is yielded. *)
Definition extend_state (s : state C) (f : list string)
    : result (list extension) :=
  match gap s with
  | None =>
      Ok (j ← xrange (i s + 1) (len f + 1);
          match tm !! pyslice f (i s) j with
          | Some phrases =>
              (yield_for s j None (bool_decide (j = len f)) <$> phrases)
              ++ (k ← xrange (j + 1) (len f + 1);
                  match tm !! pyslice f j k with
                  | Some phrases' =>
                      yield_for s k (Some (i s, j)) false <$> phrases'
                  | None => []
                  end)
          | None => []
          end)
  | Some g =>
      match tm !! pyslice f g.1 g.2 with
      | Some phrases =>
          Ok (yield_for s (i s) None (bool_decide (i s = len f)) <$> phrases)
      | None => Raise KeyError
      end
  end.

(** Lines 111-114: the hypothesis built for an extension of [h]. *)
Definition new_hypothesis (h : hypothesis C) (e : extension)
    : hypothesis C :=
  let '(new_state, lp, ph) := e in
  Hyp (logprob h + lp)%float (Some h) (Some ph) new_state.

(** Lines 115-117: the new hypothesis goes to the stack its state is
    assigned to, unless that stack holds a hypothesis for the same state
    whose score is not lower. *)
Definition recombine (stacks : list stack) (new_state : state C)
    (new_h : hypothesis C) : result (list stack) :=
  let j := assign_stack new_state in
  pos ←! list_position stacks j;
  let stack_j : stack := stacks !!! pos in
  match stack_j !! new_state with
  | Some old =>
      if (logprob old <? logprob new_h)%float
      then Ok (<[pos := <[new_state := new_h]> stack_j]> stacks)
      else Ok stacks
  | None => Ok (<[pos := <[new_state := new_h]> stack_j]> stacks)
  end.

(** Lines 110-117: all extensions of one hypothesis. *)
Definition expand (f : list string) (stacks : list stack)
    (h : hypothesis C) : result (list stack) :=
  extensions ←! extend_state (h_state h) f;
  for_each (fun stacks e => recombine stacks e.1.1 (new_hypothesis h e))
           stacks extensions.

(** The hypotheses of a stack that are expanded (line 109). *)
Definition prune (stk : stack) : list (hypothesis C) :=
  pyslice (sorted (fun h => (- logprob h)%float) (itervalues stk)) 0 opts_s.

(** Lines 109-117 for the stack at position [idx].  The loop variable
    [stack] is the dictionary object stored in [stacks], so the stack is
    read from the current store. *)
Definition process_stack (f : list string) (stacks : list stack)
    (idx : nat) : result (list stack) :=
  for_each (expand f) stacks (prune (stacks !!! idx)).

Definition root : hypothesis C := Hyp 0%float None None initial_state.

(** Lines 106-107. *)
Definition initial_stacks (f : list string) : list stack :=
  let stacks : list stack := ((fun _ => ∅) <$> f) ++ [∅] in
  <[0%nat := <[initial_state := root]> (stacks !!! 0%nat)]> stacks.

(** Lines 106-117.  [stacks[:-1]] is computed once, before the loop. *)
Definition decode_stacks (f : list string) : result (list stack) :=
  let stacks := initial_stacks f in
  for_each (process_stack f) stacks
           (seq 0 (length (pyslice stacks 0 (-1)))).

(** Line 118. *)
Definition select_winner (stacks : list stack) : result (hypothesis C) :=
  pos ←! list_position stacks (-1);
  py_max logprob (itervalues (stacks !!! pos)).

Definition decode (f : list string) : result (hypothesis C) :=
  stacks ←! decode_stacks f;
  select_winner stacks.

(** Lines 106-121: what is printed for the sentence [f]. *)
Definition translate (f : list string) : result string :=
  winner ←! decode f;
  extract_english max_depth winner.

(** *** The search graph *)

(** The hypotheses the decoder can build for [f], whatever the beam:
    the root, and every extension of a hypothesis already built. *)
Inductive reachable (f : list string) : hypothesis C → Prop :=
  | reachable_root : reachable f root
  | reachable_extend h extensions e :
      reachable f h →
      extend_state (h_state h) f = Ok extensions →
      e ∈ extensions →
      reachable f (new_hypothesis h e).

(** The hypotheses on the predecessor chain of [h], nearest first. *)
Fixpoint ancestors (h : hypothesis C) : list (hypothesis C) :=
  match h with
  | Hyp _ None _ _ => []
  | Hyp _ (Some p) _ _ => p :: ancestors p
  end.

(** One step of a chain, from state [s] to state [s']: the coverage index
    grows from a state without gap, and stays while the gap is closed
    from a state with a gap. *)
Definition monotone_step (s s' : state C) : Prop :=
  match gap s with
  | None => i s < i s'
  | Some _ => i s' = i s ∧ gap s' = None
  end.

Fixpoint monotone_chain (h : hypothesis C) : Prop :=
  match h with
  | Hyp _ None _ _ => True
  | Hyp _ (Some p) _ s' => monotone_step (h_state p) s' ∧ monotone_chain p
  end.

(** A measure that every step increases: twice the coverage index, plus
    one when no gap is pending. *)
Definition progress (s : state C) : Z :=
  2 * i s + match gap s with
            | None => 1
            | Some _ => 0
            end.

(** What holds of the state of every reachable hypothesis. *)
Definition state_ok (f : list string) (s : state C) : Prop :=
  0 ≤ i s ≤ len f ∧
  match gap s with
  | None => True
  | Some g => 0 ≤ g.1 < g.2 ∧ g.2 < i s ∧ is_Some (tm !! pyslice f g.1 g.2)
  end.

(** What holds of the stacks throughout decoding: there is one stack per
    number of words, and a stack files each of its hypotheses under the
    state of the hypothesis, which is a state assigned to that stack. *)
Definition stacks_ok (f : list string) (stacks : list stack) : Prop :=
  length stacks = S (length f) ∧
  ∀ (idx : nat) (stk : stack) (st : state C) (h : hypothesis C),
    stacks !! idx = Some stk → stk !! st = Some h →
    h_state h = st ∧ assign_stack st = Z.of_nat idx ∧ reachable f h.

Definition nonempty_at (stacks : list stack) (idx : nat) : Prop :=
  ∃ (stk : stack) (st : state C) (h : hypothesis C),
    stacks !! idx = Some stk ∧ stk !! st = Some h.

(** No stack that holds a hypothesis loses all of them. *)
Definition grows (stacks stacks' : list stack) : Prop :=
  ∀ idx, nonempty_at stacks idx → nonempty_at stacks' idx.

(** Before the stack at position [n] is processed, the stacks are in
    order and some stack at or after [n] is not empty. *)
Definition frontier (f : list string) (n : nat) (stacks : list stack)
    : Prop :=
  stacks_ok f stacks ∧
  ∃ idx, (n ≤ idx ≤ length f)%nat ∧ nonempty_at stacks idx.

(** The stacks at the positions up to [n] are the same. *)
Definition same_upto (n : nat) (stacks stacks' : list stack) : Prop :=
  ∀ k, (k ≤ n)%nat → stacks' !! k = stacks !! k.

(** The source span [(a, b)] whose slice [f[a:b]] is looked up in the
    table on the step from state [s] to state [s']: the gap of [s] in
    case 3, the span after the new gap in case 2, and the span between the
    two coverage indices in case 1. *)
Definition step_span (s s' : state C) : Z * Z :=
  match gap s with
  | Some g => g
  | None =>
      match gap s' with
      | Some g' => (g'.2, i s')
      | None => (i s, i s')
      end
  end.

(** The source positions translated along the predecessor chain of [h],
    in the order of translation. *)
Fixpoint translated (h : hypothesis C) : list Z :=
  match h with
  | Hyp _ None _ _ => []
  | Hyp _ (Some p) _ s' =>
      translated p
      ++ xrange (step_span (h_state p) s').1 (step_span (h_state p) s').2
  end.

(** The source positions a state accounts for: those before the coverage
    index and outside the gap. *)
Definition covers (s : state C) (p : Z) : Prop :=
  0 ≤ p < i s ∧
  match gap s with
  | None => True
  | Some g => ¬ (g.1 ≤ p < g.2)
  end.

(** The history after the language model has scored [words] in order. *)
Definition lm_feed (lm_state : C) (words : list string) : C :=
  foldl (fun lm_state word => (lm_score lm lm_state word).1) lm_state words.

(** The log-probabilities the language model returns for [words], scored
    in order from the history [lm_state], each word from the history the
    word before it has left. *)
Fixpoint lm_scores (lm_state : C) (words : list string) : list float :=
  match words with
  | [] => []
  | word :: words' =>
      (lm_score lm lm_state word).2
      :: lm_scores (lm_score lm lm_state word).1 words'
  end.

End Decoder.

(** ** A small instance

    A language model whose history is the last word and which scores every
    word with [-1] and the end of the sentence with [-0.5], phrase tables
    for the sentence [a b c], and the dictionary order of [map_to_list]. *)

Module Example.

Local Open Scope string_scope.

Definition lm1 : LM (list string) := {|
  lm_begin := ["<s>"];
  lm_score := fun _ word => ([word], (-1)%float);
  lm_end := fun _ => (-0.5)%float;
|}.

Definition itervalues1
    (m : gmap (state (list string)) (hypothesis (list string)))
    : list (hypothesis (list string)) :=
  (map_to_list m).*2.

Definition f1 : list string := ["a"; "b"; "c"].

(** Every token has one candidate; so has the span [a b]. *)
Definition tm1 : TM :=
  list_to_map [ (["a"], [Phrase "A" (-0.5)%float]);
                (["b"], [Phrase "B" 0%float]);
                (["c"], [Phrase "C" (-0.125)%float]);
                (["a"; "b"], [Phrase "A B" (-0.5)%float]) ].

(** Every token has one candidate, but the entry of the span [a b] lists
    none, and [C] is the best first phrase. *)
Definition tm2 : TM :=
  list_to_map [ (["a"], [Phrase "A" (-2)%float]);
                (["b"], [Phrase "B" (-2)%float]);
                (["c"], [Phrase "C" (-0.5)%float]);
                (["a"; "b"], []) ].

(** The state after [A B], and the two hypotheses that reach it under
    [tm1], with the same score: in one step, and in two. *)
Definition s_ab : state (list string) := State 2 None ["B"].

Definition h_a : hypothesis (list string) :=
  new_hypothesis (root lm1)
    (State 1 None ["A"], (-1.5)%float, Phrase "A" (-0.5)%float).

Definition h_ab_joint : hypothesis (list string) :=
  new_hypothesis (root lm1) (s_ab, (-2.5)%float, Phrase "A B" (-0.5)%float).

Definition h_ab_split : hypothesis (list string) :=
  new_hypothesis h_a (s_ab, (-1)%float, Phrase "B" 0%float).

(** Four empty stacks, as for a sentence of three tokens. *)
Definition empty_stacks
    : list (gmap (state (list string)) (hypothesis (list string))) :=
  [∅; ∅; ∅; ∅].

(** The stack of one translated word after decoding [a b c] with a beam of
    two hypotheses. *)
Definition stack1 : gmap (state (list string)) (hypothesis (list string)) :=
  match decode_stacks lm1 tm1 2 itervalues1 f1 with
  | Ok stacks => stacks !!! 1%nat
  | Raise _ => ∅
  end.

(** The state after [C] alone, with the gap [(0, 2)] still to fill. *)
Definition s_c : state (list string) := State 3 (Some (0, 2)) ["C"].

(** A table that knows only the phrase [b c], and two inputs with the
    same tokens. *)
Definition tm3 : TM :=
  list_to_map [ (["b"; "c"], [Phrase "B C" (-0.5)%float]) ].

Definition french1 : list (list string) := [f1].

Definition french2 : list (list string) := [["c"; "b"]; ["a"; "a"]].

(** [B] translated first, skipping [a], and then [A] filling the gap. *)
Definition h_skip : hypothesis (list string) :=
  new_hypothesis (root lm1)
    (State 2 (Some (0, 1)) ["B"], (-1)%float, Phrase "B" 0%float).

Definition h_fill : hypothesis (list string) :=
  new_hypothesis h_skip
    (State 2 None ["A"], (-1.5)%float, Phrase "A" (-0.5)%float).

End Example.

(** ** Facts about the built-ins *)

Lemma elem_of_xrange (a b j : Z) : j ∈ xrange a b ↔ a ≤ j < b.
Proof. unfold xrange. rewrite elem_of_seqZ. lia. Qed.

(** ** Facts about the extension engine *)

Section ExtensionFacts.

Context {C : Type} `{Countable C}.
Variable lm : LM C.
Variable tm : TM.

Lemma yield_for_eq (s : state C) new_i new_gap eos ph :
  yield_for lm s new_i new_gap eos ph =
  (State new_i new_gap (add_log_probs lm (lm_state s) ph eos).1,
   (add_log_probs lm (lm_state s) ph eos).2, ph).
Proof. unfold yield_for. by destruct add_log_probs. Qed.

(** What a state without gap yields: the tuples of case 1 and case 2. *)
Lemma elem_of_extend_state_no_gap (s : state C) (f : list string) :
  gap s = None →
  ∃ extensions, extend_state lm tm s f = Ok extensions ∧
    ∀ e, e ∈ extensions ↔
      (∃ j phrases ph,
          i s < j ≤ len f ∧ tm !! pyslice f (i s) j = Some phrases ∧
          ph ∈ phrases ∧
          e = yield_for lm s j None (bool_decide (j = len f)) ph)
      ∨ (∃ j k phrases ph,
          i s < j ≤ len f ∧ is_Some (tm !! pyslice f (i s) j) ∧
          j < k ≤ len f ∧ tm !! pyslice f j k = Some phrases ∧
          ph ∈ phrases ∧
          e = yield_for lm s k (Some (i s, j)) false ph).
Proof.
  intros Hgap. unfold extend_state. rewrite Hgap. eexists; split; [done|].
  intros e. rewrite list_elem_of_bind. split.
  - intros (j & He & Hj). apply elem_of_xrange in Hj.
    destruct (tm !! pyslice f (i s) j) as [phrases|] eqn:Htm;
      [|by apply elem_of_nil in He].
    apply elem_of_app in He as [He|He].
    + apply list_elem_of_fmap in He as (ph & -> & Hph).
      left. exists j, phrases, ph. repeat split; [lia..|done|done].
    + apply list_elem_of_bind in He as (k & He & Hk).
      apply elem_of_xrange in Hk.
      destruct (tm !! pyslice f j k) as [phrases'|] eqn:Htm';
        [|by apply elem_of_nil in He].
      apply list_elem_of_fmap in He as (ph & -> & Hph).
      right. exists j, k, phrases', ph. rewrite Htm.
      repeat split; [lia..|by eexists|lia|lia|done|done].
  - intros [(j & phrases & ph & Hj & Htm & Hph & ->)
           |(j & k & phrases & ph & Hj & [phs0 Htm0] & Hk & Htm & Hph & ->)].
    + exists j. rewrite Htm, elem_of_xrange. split; [|lia].
      apply elem_of_app. left. apply list_elem_of_fmap. eauto.
    + exists j. rewrite Htm0, elem_of_xrange. split; [|lia].
      apply elem_of_app. right. apply list_elem_of_bind.
      exists k. rewrite Htm, elem_of_xrange. split; [|lia].
      apply list_elem_of_fmap. eauto.
Qed.

(** What a state with a gap yields, when the table has the span. *)
Lemma extend_state_gap (s : state C) (f : list string) g0 g1 phrases :
  gap s = Some (g0, g1) →
  tm !! pyslice f g0 g1 = Some phrases →
  extend_state lm tm s f =
  Ok (yield_for lm s (i s) None (bool_decide (i s = len f)) <$> phrases).
Proof.
  intros Hgap Htm. unfold extend_state. by rewrite Hgap; simpl; rewrite Htm.
Qed.

(** What [add_log_probs] computes: the history after the language model
    has scored the words of the phrase in order; and the score of the
    phrase, to which the scores of the words are added one after the
    other, and then [lm.end] of the last history, or 0.0. *)
Lemma add_log_probs_eq (ctx : C) (ph : phrase) (eos : bool) :
  add_log_probs lm ctx ph eos =
  (lm_feed lm ctx (split (english ph)),
   (foldl PrimFloat.add (phrase_logprob ph)
          (lm_scores lm ctx (split (english ph)))
    + (if eos then lm_end lm (lm_feed lm ctx (split (english ph))) else 0))%float).
Proof.
  unfold add_log_probs, lm_feed.
  generalize (phrase_logprob ph) as lp. revert ctx.
  induction (split (english ph)) as [|w ws IH]; intros ctx lp; [done|].
  simpl. destruct (lm_score lm ctx w) as [ctx' wlp]. simpl. apply IH.
Qed.

Lemma yield_for_spec (s : state C) new_i new_gap eos ph :
  yield_for lm s new_i new_gap eos ph =
  (State new_i new_gap (lm_feed lm (lm_state s) (split (english ph))),
   (foldl PrimFloat.add (phrase_logprob ph)
          (lm_scores lm (lm_state s) (split (english ph)))
    + (if eos
       then lm_end lm (lm_feed lm (lm_state s) (split (english ph)))
       else 0))%float,
   ph).
Proof. by rewrite yield_for_eq, add_log_probs_eq. Qed.

(** C1. From a state [s] without gap, the extensions without gap are
    exactly these: for every [j] in [(i s, len f]] whose span
    [f[i s:j]] has a table entry and every phrase [ph] of that entry, the
    state [(j, None, lm_state')], where [lm_state'] is the history after
    the language model has scored the words of [ph] in order from the
    history of [s]; its score is the score of [ph] plus the scores the
    language model returns for these words, plus [lm.end] of [lm_state']
    iff [j = len f] (and 0.0 otherwise). *)
Theorem extend_state_contiguous (s : state C) (f : list string) :
  gap s = None →
  ∃ extensions, extend_state lm tm s f = Ok extensions ∧
    ∀ e : extension,
      (e ∈ extensions ∧ gap e.1.1 = None) ↔
      ∃ j phrases ph,
        i s < j ≤ len f ∧ tm !! pyslice f (i s) j = Some phrases ∧
        ph ∈ phrases ∧
        let words := split (english ph) in
        let lm_state' := lm_feed lm (lm_state s) words in
        e = (State j None lm_state',
             (foldl PrimFloat.add (phrase_logprob ph)
                    (lm_scores lm (lm_state s) words)
              + (if bool_decide (j = len f) then lm_end lm lm_state' else 0))
             %float,
             ph).
Proof.
  intros Hgap.
  destruct (elem_of_extend_state_no_gap s f Hgap) as (exts & Hexts & Hin).
  exists exts. split; [done|]. intros e. rewrite Hin. split.
  - intros [[(j & phs & ph & Hj & Htm & Hph & ->)
            |(j & k & phs & ph & _ & _ & _ & _ & _ & ->)] Hnone].
    + exists j, phs, ph. by rewrite yield_for_spec.
    + by rewrite yield_for_eq in Hnone.
  - intros (j & phs & ph & Hj & Htm & Hph & ->). split; [|done].
    left. exists j, phs, ph. by rewrite yield_for_spec.
Qed.

(** C2, as the code has it.  From a state [s] without gap, the extensions
    that open a gap are exactly these: for every [j] in [(i s, len f]]
    whose span [f[i s:j]] has a table entry, every [k] in [(j, len f]]
    whose span [f[j:k]] has a table entry and every phrase [ph] of that
    entry, the state [(k, (i s, j), lm_state')], where [lm_state'] is the
    history after the language model has scored the words of [ph] in
    order; its score is the score of [ph] plus the scores the language
    model returns for these words, plus 0.0 and never [lm.end].  Such an
    extension comes with the table entry of [f[i s:j]], and the list holds
    the case 1 extension to [j] for every phrase of that entry: none, when
    the entry lists no phrase. *)
Theorem extend_state_skip (s : state C) (f : list string) :
  gap s = None →
  ∃ extensions, extend_state lm tm s f = Ok extensions ∧
    (∀ e : extension,
      (e ∈ extensions ∧ gap e.1.1 ≠ None) ↔
      ∃ j k phrases ph,
        i s < j ≤ len f ∧ is_Some (tm !! pyslice f (i s) j) ∧
        j < k ≤ len f ∧ tm !! pyslice f j k = Some phrases ∧
        ph ∈ phrases ∧
        let words := split (english ph) in
        e = (State k (Some (i s, j)) (lm_feed lm (lm_state s) words),
             (foldl PrimFloat.add (phrase_logprob ph)
                    (lm_scores lm (lm_state s) words) + 0)%float,
             ph))
    ∧ ∀ (e : extension) g0 j,
        e ∈ extensions → gap e.1.1 = Some (g0, j) →
        g0 = i s ∧
        ∃ phrases0, tm !! pyslice f (i s) j = Some phrases0 ∧
          ∀ ph0, ph0 ∈ phrases0 →
            let words0 := split (english ph0) in
            let lm_state0 := lm_feed lm (lm_state s) words0 in
            (State j None lm_state0,
             (foldl PrimFloat.add (phrase_logprob ph0)
                    (lm_scores lm (lm_state s) words0)
              + (if bool_decide (j = len f) then lm_end lm lm_state0 else 0))
             %float,
             ph0) ∈ extensions.
Proof.
  intros Hgap.
  destruct (elem_of_extend_state_no_gap s f Hgap) as (exts & Hexts & Hin).
  exists exts. split; [done|]. split.
  - intros e. rewrite Hin. split.
    + intros [[(j & phs & ph & _ & _ & _ & ->)
              |(j & k & phs & ph & Hj & Hsome & Hk & Htm & Hph & ->)] Hsome'].
      * by rewrite yield_for_eq in Hsome'.
      * exists j, k, phs, ph. by rewrite yield_for_spec.
    + intros (j & k & phs & ph & Hj & Hsome & Hk & Htm & Hph & ->).
      split; [|done]. right. exists j, k, phs, ph. by rewrite yield_for_spec.
  - intros e g0 j He Hsome. apply Hin in He
      as [(j' & phs & ph & _ & _ & _ & ->)
         |(j' & k & phs & ph & Hj & [phs0 Hphs0] & _ & _ & _ & ->)];
      rewrite yield_for_eq in Hsome; simpl in Hsome; [done|].
    injection Hsome as <- <-. split; [done|].
    exists phs0. split; [done|]. intros ph0 Hph0. apply Hin. left.
    exists j', phs0, ph0. by rewrite yield_for_spec.
Qed.

(** C3. From a state [s] with the gap [(g0, g1)] whose span has the
    table entry [phrases], the extensions are exactly, phrase by phrase,
    the state [(i s, None, lm_state')], where [lm_state'] is the history
    after the language model has scored the words of the phrase in order
    from the history of [s]; its score is the score of the phrase plus the
    scores the language model returns for these words, plus [lm.end] of
    [lm_state'] iff [i s = len f] (and 0.0 otherwise).  So every extension
    keeps the coverage index and has no gap. *)
Theorem extend_state_fill (s : state C) (f : list string) g0 g1 phrases :
  gap s = Some (g0, g1) →
  tm !! pyslice f g0 g1 = Some phrases →
  extend_state lm tm s f =
    Ok ((fun ph =>
           let words := split (english ph) in
           let lm_state' := lm_feed lm (lm_state s) words in
           (State (i s) None lm_state',
            (foldl PrimFloat.add (phrase_logprob ph)
                   (lm_scores lm (lm_state s) words)
             + (if bool_decide (i s = len f) then lm_end lm lm_state' else 0))
            %float,
            ph)) <$> phrases)
  ∧ ∀ extensions (e : extension),
      extend_state lm tm s f = Ok extensions → e ∈ extensions →
      i e.1.1 = i s ∧ gap e.1.1 = None.
Proof.
  intros Hgap Htm. rewrite (extend_state_gap s f g0 g1 phrases Hgap Htm).
  split.
  - f_equal. apply list_fmap_ext. intros _ ph _. apply yield_for_spec.
  - intros exts e [= <-] (ph & -> & _)%list_elem_of_fmap.
    by rewrite yield_for_eq.
Qed.

End ExtensionFacts.

(** ** Facts about the search graph *)

Section GraphFacts.

Context {C : Type} `{Countable C}.
Variable lm : LM C.
Variable tm : TM.

Lemma h_state_new_hypothesis (h : hypothesis C) (e : extension) :
  h_state (new_hypothesis h e) = e.1.1.
Proof. by destruct e as [[? ?] ?]. Qed.

Lemma ancestors_new_hypothesis (h : hypothesis C) (e : extension) :
  ancestors (new_hypothesis h e) = h :: ancestors h.
Proof. by destruct e as [[? ?] ?]. Qed.

(** Every edge of the graph is a monotone step. *)
Lemma extend_state_monotone (s : state C) f extensions (e : extension) :
  extend_state lm tm s f = Ok extensions → e ∈ extensions →
  monotone_step s e.1.1.
Proof.
  intros Hexts He. unfold monotone_step.
  destruct (gap s) as [[g0 g1]|] eqn:Hgap.
  - unfold extend_state in Hexts. rewrite Hgap in Hexts. simpl in Hexts.
    destruct (tm !! pyslice f g0 g1) as [phs|]; [|done].
    injection Hexts as <-.
    apply list_elem_of_fmap in He as (ph & -> & _).
    by rewrite yield_for_eq.
  - destruct (elem_of_extend_state_no_gap lm tm s f Hgap)
      as (exts & Hexts' & Hin).
    rewrite Hexts in Hexts'. injection Hexts' as <-.
    apply Hin in He as [(j & phs & ph & Hj & _ & _ & ->)
                       |(j & k & phs & ph & Hj & _ & Hk & _ & _ & ->)];
      rewrite yield_for_eq; simpl; lia.
Qed.

Lemma monotone_step_progress (s s' : state C) :
  monotone_step s s' → progress s < progress s'.
Proof.
  unfold monotone_step, progress.
  destruct (gap s); [intros [-> ->]|destruct (gap s')]; lia.
Qed.

(** Every edge leads from a good state to a good state of a later
    stack. *)
Lemma extend_state_ok (s : state C) f extensions (e : extension) :
  state_ok tm f s →
  extend_state lm tm s f = Ok extensions → e ∈ extensions →
  state_ok tm f e.1.1 ∧ assign_stack s < assign_stack e.1.1.
Proof.
  intros [Hi Hg] Hexts He. unfold state_ok, assign_stack.
  destruct (gap s) as [[g0 g1]|] eqn:Hgap.
  - unfold extend_state in Hexts. rewrite Hgap in Hexts. simpl in *.
    destruct (tm !! pyslice f g0 g1) as [phs|]; [|done].
    injection Hexts as <-.
    apply list_elem_of_fmap in He as (ph & -> & _).
    rewrite yield_for_eq. simpl. lia.
  - destruct (elem_of_extend_state_no_gap lm tm s f Hgap)
      as (exts & Hexts' & Hin).
    rewrite Hexts in Hexts'. injection Hexts' as <-.
    apply Hin in He as [(j & phs & ph & Hj & _ & _ & ->)
                       |(j & k & phs & ph & Hj & Hsome & Hk & _ & _ & ->)];
      rewrite yield_for_eq; simpl; [lia|].
    repeat split; try done; lia.
Qed.

Lemma reachable_state_ok f (h : hypothesis C) :
  reachable lm tm f h → state_ok tm f (h_state h).
Proof.
  induction 1 as [|h exts e _ IH Hexts He].
  - unfold state_ok, len. simpl. lia.
  - rewrite h_state_new_hypothesis. by eapply extend_state_ok.
Qed.

(** A good state can always be extended: its gap is in the table. *)
Lemma state_ok_extend_state f (s : state C) :
  state_ok tm f s → ∃ extensions, extend_state lm tm s f = Ok extensions.
Proof.
  intros [_ Hg]. destruct (gap s) as [[g0 g1]|] eqn:Hgap.
  - destruct Hg as (_ & _ & [phs Hphs]). simpl in Hphs.
    rewrite (extend_state_gap lm tm s f g0 g1 phs); eauto.
  - destruct (elem_of_extend_state_no_gap lm tm s f Hgap) as (? & ? & _).
    eauto.
Qed.

(** The stack of a good state exists, and it is the last stack only for
    a state that covers the sentence and has no gap. *)
Lemma state_ok_assign_stack f (s : state C) :
  state_ok tm f s →
  0 ≤ assign_stack s ≤ len f ∧
  (assign_stack s = len f → i s = len f ∧ gap s = None).
Proof.
  intros [Hi Hg]. unfold assign_stack.
  destruct (gap s) as [[g0 g1]|]; simpl in *; [lia|].
  split; [lia|]. intros. split; [lia|done].
Qed.

Lemma reachable_monotone_chain f (h : hypothesis C) :
  reachable lm tm f h → monotone_chain h.
Proof.
  induction 1 as [|h exts e _ IH Hexts He]; [done|].
  pose proof (extend_state_monotone _ _ _ _ Hexts He) as Hstep.
  destruct e as [[new_state lp] ph]. by split.
Qed.

Lemma reachable_ancestors_progress f (h a : hypothesis C) :
  reachable lm tm f h → a ∈ ancestors h →
  progress (h_state a) < progress (h_state h).
Proof.
  induction 1 as [|h exts e _ IH Hexts He]; [by intros ?%elem_of_nil|].
  rewrite ancestors_new_hypothesis, h_state_new_hypothesis.
  pose proof (extend_state_monotone _ _ _ _ Hexts He) as Hstep.
  apply monotone_step_progress in Hstep.
  intros [->|Ha]%elem_of_cons; [done|]. specialize (IH Ha). lia.
Qed.

(** C7. Along the predecessor chain of every reachable hypothesis, each
    step from a state without gap increases the coverage index, and each
    step from a state with a gap keeps the coverage index and closes the
    gap (so a gap is only opened while none is pending); the measure
    [progress] grows with every step, so no ancestor of a hypothesis has
    the state of the hypothesis, nor is the hypothesis itself. *)
Theorem coverage_monotone f (h : hypothesis C) :
  reachable lm tm f h →
  monotone_chain h ∧
  ∀ a, a ∈ ancestors h →
    progress (h_state a) < progress (h_state h) ∧
    i (h_state a) ≤ i (h_state h) ∧
    h_state a ≠ h_state h ∧ a ≠ h.
Proof.
  intros Hh. split; [by eapply reachable_monotone_chain|].
  intros a Ha.
  pose proof (reachable_ancestors_progress f h a Hh Ha) as Hlt.
  repeat split.
  - done.
  - revert Hlt. unfold progress.
    destruct (gap (h_state a)), (gap (h_state h)); lia.
  - intros Heq. rewrite Heq in Hlt. lia.
  - intros ->. lia.
Qed.

(** C9. The gap of every reachable hypothesis is a span of the table, so
    the lookup [tm[f[g0:g1]]] of case 3 finds its key and
    [extend_state] does not raise. *)
Theorem gap_lookup_succeeds f (h : hypothesis C) g0 g1 :
  reachable lm tm f h →
  gap (h_state h) = Some (g0, g1) →
  ∃ phrases,
    tm !! pyslice f g0 g1 = Some phrases ∧
    extend_state lm tm (h_state h) f =
      Ok (yield_for lm (h_state h) (i (h_state h)) None
            (bool_decide (i (h_state h) = len f)) <$> phrases).
Proof.
  intros Hh Hgap. destruct (reachable_state_ok f h Hh) as [_ Hg].
  rewrite Hgap in Hg. destruct Hg as (_ & _ & [phs Hphs]).
  exists phs. split; [done|]. by apply extend_state_gap with g0 g1.
Qed.

End GraphFacts.

(** ** Facts about the decoder driver *)

(** A loop whose body keeps the invariant [P], only moves up in [le], and
    establishes [R x] when it meets [x], neither raises nor breaks [P], and
    ends with [R x] for every element it met. *)
Lemma for_each_grows {A B : Type} (P : A → Prop) (Q : B → Prop)
    (le : relation A) `{!PreOrder le} (R : B → A → Prop)
    (body : A → B → result A) (l : list B) (a : A) :
  (∀ x a a', R x a → le a a' → R x a') →
  (∀ a x, P a → Q x → ∃ a', body a x = Ok a' ∧ P a' ∧ le a a' ∧ R x a') →
  P a → Forall Q l →
  ∃ a', for_each body a l = Ok a' ∧ P a' ∧ le a a' ∧ ∀ x, x ∈ l → R x a'.
Proof.
  intros Hmono Hbody. revert a.
  induction l as [|x l IH]; intros a Ha Hl; simpl.
  - exists a. repeat split; [done..|]. by intros x ?%elem_of_nil.
  - apply Forall_cons in Hl as [Hx Hl].
    destruct (Hbody a x Ha Hx) as (a1 & -> & Ha1 & Hle1 & HR1). simpl.
    destruct (IH a1 Ha1 Hl) as (a' & -> & Ha' & Hle' & HR').
    exists a'. repeat split; [done|by etrans|].
    intros y [->|Hy]%elem_of_cons; eauto.
Qed.

Lemma list_position_ok {A : Type} (l : list A) (j : Z) :
  0 ≤ j < len l → list_position l j = Ok (Z.to_nat j).
Proof.
  intros Hj. unfold list_position.
  destruct (Z.ltb_spec j 0); [lia|].
  destruct (Z.leb_spec 0 j); [|lia]. destruct (Z.ltb_spec j (len l)); [|lia].
  done.
Qed.

Lemma adjust_index_nonneg (n idx : Z) :
  0 ≤ n → 0 ≤ idx → adjust_index n idx = Z.min idx n.
Proof.
  intros. unfold adjust_index. destruct (Z.ltb_spec idx 0);
    repeat match goal with
           | |- context [?a <? ?b] => destruct (Z.ltb_spec a b)
           end;
    lia.
Qed.

Lemma adjust_index_neg (n idx : Z) :
  0 ≤ n → idx < 0 → adjust_index n idx = Z.max 0 (idx + n).
Proof.
  intros. unfold adjust_index. destruct (Z.ltb_spec idx 0);
    repeat match goal with
           | |- context [?a <? ?b] => destruct (Z.ltb_spec a b)
           end;
    lia.
Qed.

(** [l[:n]] for a non-negative [n] is the first [n] elements of [l]. *)
Lemma pyslice_0_take {A : Type} (l : list A) (n : Z) :
  0 ≤ n → pyslice l 0 n = take (Z.to_nat n) l.
Proof.
  intros Hn. unfold pyslice.
  rewrite !adjust_index_nonneg by (unfold len; lia).
  rewrite (Z.min_l 0) by (unfold len; lia). simpl.
  destruct (Z.le_ge_cases n (len l)).
  - f_equal. lia.
  - change (drop (Z.to_nat 0) l) with l.
    rewrite !take_ge; [done|unfold len in *; lia..].
Qed.

(** [l[:-1]] is [l] without its last element. *)
Lemma pyslice_0_minus_1 {A : Type} (l : list A) :
  pyslice l 0 (-1) = take (pred (length l)) l.
Proof.
  unfold pyslice.
  rewrite (adjust_index_nonneg _ 0), (adjust_index_neg _ (-1))
    by (unfold len; lia).
  rewrite (Z.min_l 0) by (unfold len; lia). simpl. f_equal. unfold len. lia.
Qed.

Lemma elem_of_pyslice {A : Type} (l : list A) (lo hi : Z) (x : A) :
  x ∈ pyslice l lo hi → x ∈ l.
Proof.
  unfold pyslice. intros Hx.
  eapply elem_of_sublist; [done|].
  etrans; [apply sublist_take|apply sublist_drop].
Qed.

Lemma sorted_insert_perm {A : Type} (key : A → float) (x : A) (l : list A) :
  sorted_insert key x l ≡ₚ x :: l.
Proof.
  induction l as [|y l IH]; simpl; [done|].
  destruct (key y <? key x)%float; [|done].
  rewrite IH. apply Permutation_swap.
Qed.

Lemma sorted_perm {A : Type} (key : A → float) (l : list A) :
  sorted key l ≡ₚ l.
Proof.
  induction l as [|x l IH]; simpl; [done|].
  fold (sorted key l). by rewrite sorted_insert_perm, IH.
Qed.

(** ** Facts about the order of floats

    [<?] on binary64 floats is asymmetric, and on floats that are not NaN
    it is the strict part of a total preorder.  Negation reverses it. *)

Ltac compare_cases :=
  repeat match goal with
  | |- context [Pos.compare_cont Eq ?a ?b] =>
      change (Pos.compare_cont Eq a b) with (Pos.compare a b)
  | H : context [Pos.compare_cont Eq ?a ?b] |- _ =>
      change (Pos.compare_cont Eq a b) with (Pos.compare a b) in H
  end;
  repeat match goal with
  | H : context [Z.compare ?a ?b] |- _ =>
      destruct (Z.compare_spec a b); simpl in H; try discriminate H
  | H : context [Pos.compare ?a ?b] |- _ =>
      destruct (Pos.compare_spec a b); simpl in H; try discriminate H
  | |- context [Z.compare ?a ?b] =>
      destruct (Z.compare_spec a b); simpl
  | |- context [Pos.compare ?a ?b] =>
      destruct (Pos.compare_spec a b); simpl
  end;
  subst; try reflexivity; try discriminate; try lia; auto.

Lemma SFltb_asym x y : SFltb x y = true → SFltb y x = false.
Proof.
  unfold SFltb, SFcompare.
  destruct x as [[]|[]| |[] m1 e1], y as [[]|[]| |[] m2 e2];
    simpl; try reflexivity; try discriminate; intros Hlt; compare_cases.
Qed.

Lemma SFltb_cotrans x y z :
  SFltb z x = true → SFeqb y y = true →
  SFltb z y = true ∨ SFltb y x = true.
Proof.
  unfold SFltb, SFeqb, SFcompare.
  destruct x as [[]|[]| |[] m1 e1], y as [[]|[]| |[] m2 e2],
           z as [[]|[]| |[] m3 e3];
    simpl; try discriminate; auto; intros Hlt _;
    try (left; reflexivity); try (right; reflexivity).
  all: compare_cases.
Qed.

Lemma SFltb_opp x y : SFltb (SFopp x) (SFopp y) = SFltb y x.
Proof.
  unfold SFltb, SFopp, SFcompare.
  destruct x as [[]|[]| |[] m1 e1], y as [[]|[]| |[] m2 e2];
    simpl; try reflexivity; compare_cases.
Qed.

Lemma ltb_asym (x y : float) : (x <? y)%float = true → (y <? x)%float = false.
Proof. rewrite !ltb_spec. apply SFltb_asym. Qed.

Lemma ltb_cotrans (x y z : float) :
  (z <? x)%float = true → (y =? y)%float = true →
  (z <? y)%float = true ∨ (y <? x)%float = true.
Proof. rewrite !ltb_spec, FloatAxioms.eqb_spec. apply SFltb_cotrans. Qed.

Lemma ltb_opp (x y : float) : (- x <? - y)%float = (y <? x)%float.
Proof. rewrite !ltb_spec, !opp_spec. apply SFltb_opp. Qed.

(** ** Facts about [sorted] and [max] *)

Section SortedFacts.

Context {A : Type} (value : A → float).

Lemma sorted_insert_descending (x : A) (l : list A) :
  Forall (fun a => (value a =? value a)%float = true) l →
  StronglySorted (not_below value) l →
  StronglySorted (not_below value)
    (sorted_insert (fun a => (- value a)%float) x l).
Proof.
  induction l as [|y l IH]; intros Hnan Hsorted; simpl.
  - by repeat constructor.
  - apply Forall_cons in Hnan as [Hy Hnan].
    apply StronglySorted_inv in Hsorted as [Hsorted Hall].
    rewrite ltb_opp. destruct (value x <? value y)%float eqn:Hlt.
    + constructor; [by apply IH|].
      rewrite sorted_insert_perm. constructor; [|done].
      by apply ltb_asym.
    + constructor; [by constructor|]. constructor; [done|].
      rewrite Forall_forall in Hall |- *. intros z Hz.
      specialize (Hall z Hz). unfold not_below in *.
      destruct (value x <? value z)%float eqn:Hxz; [|done].
      destruct (ltb_cotrans (value z) (value y) (value x) Hxz Hy); congruence.
Qed.

(** Without NaN, [sorted] by the negated value is descending. *)
Lemma sorted_descending (l : list A) :
  Forall (fun a => (value a =? value a)%float = true) l →
  StronglySorted (not_below value) (sorted (fun a => (- value a)%float) l).
Proof.
  induction l as [|x l IH]; intros Hnan; simpl; [constructor|].
  apply Forall_cons in Hnan as [Hx Hnan].
  apply sorted_insert_descending; [|by apply IH].
  fold (sorted (fun a => (- value a)%float) l). by rewrite sorted_perm.
Qed.

Lemma max_go_elem (best : A) (l : list A) :
  max_go value best l ∈ best :: l.
Proof.
  revert best. induction l as [|x l IH]; intros best; simpl; [by left|].
  specialize (IH (if (value best <? value x)%float then x else best)).
  apply elem_of_cons in IH as [IH|IH]; [|by do 2 right].
  rewrite IH. destruct (value best <? value x)%float; [right|]; by left.
Qed.

Lemma py_max_elem (l : list A) :
  l ≠ [] → ∃ x, py_max value l = Ok x ∧ x ∈ l.
Proof.
  destruct l as [|x l]; [done|]. intros _. simpl.
  eexists; split; [done|]. apply max_go_elem.
Qed.

End SortedFacts.

Section DriverFacts.

Context {C : Type} `{Countable C}.
Variable lm : LM C.
Variable tm : TM.
Variable opts_s : Z.
Variable itervalues : gmap (state C) (hypothesis C) → list (hypothesis C).
Hypothesis itervalues_perm :
  ∀ m : gmap (state C) (hypothesis C), itervalues m ≡ₚ (map_to_list m).*2.

Abbreviation stack := (gmap (state C) (hypothesis C)).

Lemma elem_of_itervalues (m : stack) (h : hypothesis C) :
  h ∈ itervalues m ↔ ∃ st, m !! st = Some h.
Proof.
  rewrite itervalues_perm, list_elem_of_fmap. split.
  - intros ([st h'] & -> & Hin%elem_of_map_to_list). eauto.
  - intros [st Hst]. exists (st, h). by rewrite elem_of_map_to_list.
Qed.

Lemma elem_of_prune (stk : stack) (h : hypothesis C) :
  h ∈ prune opts_s itervalues stk → ∃ st, stk !! st = Some h.
Proof.
  unfold prune. intros Hh%elem_of_pyslice.
  rewrite sorted_perm in Hh. by apply elem_of_itervalues.
Qed.

#[local] Instance grows_preorder : PreOrder (grows (C:=C)).
Proof. split; [by intros ? ?|]. intros ? ? ? H1 H2 idx ?. eauto. Qed.

Lemma initial_stacks_ok f : stacks_ok lm tm f (initial_stacks lm f).
Proof.
  unfold initial_stacks. split.
  - by rewrite length_insert, length_app, length_fmap, Nat.add_1_r.
  - intros idx stk st h Hidx Hst. destruct idx as [|idx].
    + rewrite list_lookup_insert_eq in Hidx
        by (rewrite length_app, length_fmap; simpl; lia).
      injection Hidx as <-.
      assert ((((fun _ => ∅) <$> f) ++ [∅] : list stack) !!! 0%nat = ∅)
        as Hempty by (by destruct f).
      rewrite Hempty in Hst.
      apply lookup_insert_Some in Hst as [[<- <-]|[_ Hst]]; [|done].
      repeat split. constructor.
    + rewrite list_lookup_insert_ne in Hidx by done.
      assert (stk = ∅) as ->; [|done].
      apply list_elem_of_lookup_2 in Hidx.
      apply elem_of_app in Hidx as [Hidx|Hidx].
      * by apply list_elem_of_fmap in Hidx as (? & -> & _).
      * by apply list_elem_of_singleton in Hidx.
Qed.

(** Filing a reachable hypothesis under its own state keeps the stacks in
    order, and leaves the stack of that state non-empty. *)
Lemma recombine_ok f (stacks : list stack) st (new_h : hypothesis C) :
  stacks_ok lm tm f stacks →
  reachable lm tm f new_h → h_state new_h = st →
  ∃ stacks', recombine stacks st new_h = Ok stacks' ∧
    stacks_ok lm tm f stacks' ∧ grows stacks stacks' ∧
    nonempty_at stacks' (Z.to_nat (assign_stack st)).
Proof.
  intros [Hlen Hstacks] Hnew Hst.
  pose proof (reachable_state_ok lm tm f new_h Hnew) as Hok.
  rewrite Hst in Hok. apply state_ok_assign_stack in Hok as [Hj _].
  unfold recombine.
  rewrite list_position_ok by (unfold len in *; lia). simpl.
  set (pos := Z.to_nat (assign_stack st)).
  assert (pos < length stacks)%nat as Hpos by (unfold len in *; lia).
  destruct (lookup_lt_is_Some_2 stacks pos Hpos) as [stk Hstk].
  rewrite (list_lookup_total_correct _ _ _ Hstk).
  assert (∃ stacks',
    <[pos := <[st := new_h]> stk]> stacks = stacks' ∧
    stacks_ok lm tm f stacks' ∧ grows stacks stacks' ∧
    nonempty_at stacks' pos) as Hinsert.
  { eexists; split; [done|]. split; [|split].
    - split; [by rewrite length_insert|].
      intros idx stk' st' h Hidx Hst'.
      destruct (decide (idx = pos)) as [->|Hne].
      + rewrite list_lookup_insert_eq in Hidx by done.
        injection Hidx as <-.
        apply lookup_insert_Some in Hst' as [[<- <-]|[_ Hst']]; [|by eauto].
        repeat split; [done| |done]. unfold pos. lia.
      + rewrite list_lookup_insert_ne in Hidx by done. eauto.
    - intros idx (stk' & st' & h & Hidx & Hst').
      destruct (decide (idx = pos)) as [->|Hne].
      + rewrite Hstk in Hidx. injection Hidx as <-.
        exists (<[st := new_h]> stk).
        destruct (decide (st = st')) as [<-|Hne'].
        * exists st, new_h. by rewrite list_lookup_insert_eq, lookup_insert_eq.
        * exists st', h.
          by rewrite list_lookup_insert_eq, lookup_insert_ne.
      + exists stk', st', h. by rewrite list_lookup_insert_ne.
    - exists (<[st := new_h]> stk), st, new_h.
      by rewrite list_lookup_insert_eq, lookup_insert_eq. }
  destruct Hinsert as (stacks' & -> & Hok' & Hgrows & Hne).
  destruct (stk !! st) as [old|] eqn:Hold; [|by exists stacks'].
  destruct (logprob old <? logprob new_h)%float; [by exists stacks'|].
  exists stacks. split; [done|]. split; [by split|]. split; [done|].
  by exists stk, st, old.
Qed.

(** Expanding a reachable hypothesis keeps the stacks in order, and
    leaves the stack of every extension non-empty. *)
Lemma expand_ok f (stacks : list stack) (h : hypothesis C) :
  stacks_ok lm tm f stacks → reachable lm tm f h →
  ∃ stacks', expand lm tm f stacks h = Ok stacks' ∧
    stacks_ok lm tm f stacks' ∧ grows stacks stacks' ∧
    ∀ extensions (e : extension),
      extend_state lm tm (h_state h) f = Ok extensions → e ∈ extensions →
      nonempty_at stacks' (Z.to_nat (assign_stack e.1.1)).
Proof.
  intros Hstacks Hh. unfold expand.
  destruct (state_ok_extend_state lm tm f (h_state h)) as [exts Hexts];
    [by apply (reachable_state_ok lm)|].
  rewrite Hexts. simpl.
  destruct (for_each_grows (stacks_ok lm tm f) (fun e => e ∈ exts) grows
              (fun (e : extension) stacks =>
                 nonempty_at stacks (Z.to_nat (assign_stack e.1.1)))
              (fun stacks e => recombine stacks e.1.1 (new_hypothesis h e))
              exts stacks)
    as (stacks' & Hloop & Hok' & Hgrows & Hne); [by eauto| |done| |].
  - intros stacks1 e Hstacks1 He. apply recombine_ok; [done| |].
    + by eapply reachable_extend.
    + apply h_state_new_hypothesis.
  - by apply Forall_forall.
  - exists stacks'. do 3 (split; [done|]).
    intros exts' e [= <-] He. by apply Hne.
Qed.

Lemma process_stack_ok f (stacks : list stack) (idx : nat) :
  stacks_ok lm tm f stacks →
  ∃ stacks', process_stack lm tm opts_s itervalues f stacks idx = Ok stacks' ∧
    stacks_ok lm tm f stacks' ∧ grows stacks stacks' ∧
    ∀ h extensions (e : extension),
      h ∈ prune opts_s itervalues (stacks !!! idx) →
      extend_state lm tm (h_state h) f = Ok extensions → e ∈ extensions →
      nonempty_at stacks' (Z.to_nat (assign_stack e.1.1)).
Proof.
  intros Hstacks. unfold process_stack.
  destruct (for_each_grows (stacks_ok lm tm f) (reachable lm tm f) grows
              (fun h stacks => ∀ extensions (e : extension),
                 extend_state lm tm (h_state h) f = Ok extensions →
                 e ∈ extensions →
                 nonempty_at stacks (Z.to_nat (assign_stack e.1.1)))
              (expand lm tm f)
              (prune opts_s itervalues (stacks !!! idx)) stacks)
    as (stacks' & Hloop & Hok' & Hgrows & Hne); [by eauto| |done| |].
  - intros stacks1 h Hstacks1 Hh. by apply expand_ok.
  - apply Forall_forall. intros h [st Hst]%elem_of_prune.
    destruct (decide (idx < length stacks)%nat) as [Hlt|Hge].
    + destruct (lookup_lt_is_Some_2 stacks idx Hlt) as [stk Hstk].
      rewrite (list_lookup_total_correct _ _ _ Hstk) in Hst.
      destruct Hstacks as [_ Hall].
      by destruct (Hall idx stk st h Hstk Hst) as (_ & _ & ?).
    + rewrite list_lookup_total_alt, lookup_ge_None_2 in Hst by lia. done.
  - exists stacks'. do 3 (split; [done|]).
    intros h exts e Hh. by apply Hne.
Qed.

(** The stacks are always built, and they are in order. *)
Lemma decode_stacks_ok f :
  ∃ stacks, decode_stacks lm tm opts_s itervalues f = Ok stacks ∧
    stacks_ok lm tm f stacks.
Proof.
  unfold decode_stacks.
  destruct (for_each_grows (stacks_ok lm tm f) (fun _ => True) grows
              (fun _ _ => True)
              (process_stack lm tm opts_s itervalues f)
              (seq 0 (length (pyslice (initial_stacks lm f) 0 (-1))))
              (initial_stacks lm f))
    as (stacks' & Hloop & Hok' & _); [done| |apply initial_stacks_ok| |].
  - intros stacks idx Hstacks _.
    destruct (process_stack_ok f stacks idx Hstacks) as (? & ? & ? & ? & _).
    eauto.
  - by apply Forall_forall.
  - eauto.
Qed.

End DriverFacts.

(** ** Recombination *)

Lemma list_position_lt {A : Type} (l : list A) (j : Z) (pos : nat) :
  list_position l j = Ok pos → (pos < length l)%nat.
Proof.
  unfold list_position, len.
  destruct (Z.ltb_spec j 0), (Z.leb_spec 0 (j + Z.of_nat (length l))),
    (Z.leb_spec 0 j); simpl; try done;
    repeat match goal with
    | |- context [?a <? ?b] => destruct (Z.ltb_spec a b)
    end; simpl; try done; intros [= <-]; lia.
Qed.

Lemma list_position_insert {A : Type} (l : list A) (p : nat) (x : A) (j : Z) :
  list_position (<[p := x]> l) j = list_position l j.
Proof. unfold list_position, len. by rewrite length_insert. Qed.

Section Recombination.

Context {C : Type} `{Countable C}.

Abbreviation stack := (gmap (state C) (hypothesis C)).

(** The first hypothesis for a state is filed. *)
Lemma recombine_fresh (stacks : list stack) st (h : hypothesis C) pos :
  list_position stacks (assign_stack st) = Ok pos →
  (stacks !!! pos) !! st = None →
  recombine stacks st h = Ok (<[pos := <[st := h]> (stacks !!! pos)]> stacks).
Proof.
  intros Hpos Hnone. unfold recombine. by rewrite Hpos; simpl; rewrite Hnone.
Qed.

(** A later hypothesis for the state replaces the one on file iff its
    score is strictly greater. *)
Lemma recombine_again (stacks : list stack) st (h1 h2 : hypothesis C) pos :
  list_position stacks (assign_stack st) = Ok pos →
  recombine (<[pos := <[st := h1]> (stacks !!! pos)]> stacks) st h2 =
  Ok (<[pos := <[st := if (logprob h1 <? logprob h2)%float then h2 else h1]>
                 (stacks !!! pos)]> stacks).
Proof.
  intros Hpos. pose proof (list_position_lt _ _ _ Hpos) as Hlt.
  unfold recombine. rewrite list_position_insert, Hpos. simpl.
  rewrite list_lookup_total_insert_eq, lookup_insert_eq by done.
  destruct (logprob h1 <? logprob h2)%float; [|done].
  by rewrite list_insert_insert_eq, insert_insert_eq.
Qed.

(** C4, as the code has it.  Two hypotheses [h1] and [h2] arrive for a
    state [st] that its stack does not hold yet.  If one of them has the
    strictly greater score, it is the one on file afterwards, whichever
    arrived first.  If neither score is below the other (equal scores),
    the one that arrived first stays on file. *)
Theorem recombination (stacks : list stack) st (h1 h2 : hypothesis C) pos :
  list_position stacks (assign_stack st) = Ok pos →
  (stacks !!! pos) !! st = None →
  let h1_then_h2 :=
    stacks1 ←! recombine stacks st h1; recombine stacks1 st h2 in
  let h2_then_h1 :=
    stacks2 ←! recombine stacks st h2; recombine stacks2 st h1 in
  let on_file h := Ok (<[pos := <[st := h]> (stacks !!! pos)]> stacks) in
  ((logprob h1 <? logprob h2)%float = true →
     h1_then_h2 = on_file h2 ∧ h2_then_h1 = on_file h2) ∧
  ((logprob h2 <? logprob h1)%float = true →
     h1_then_h2 = on_file h1 ∧ h2_then_h1 = on_file h1) ∧
  ((logprob h1 <? logprob h2)%float = false →
   (logprob h2 <? logprob h1)%float = false →
     h1_then_h2 = on_file h1 ∧ h2_then_h1 = on_file h2).
Proof.
  intros Hpos Hnone. simpl.
  rewrite !(recombine_fresh stacks st _ pos Hpos Hnone). simpl.
  rewrite !(recombine_again stacks st _ _ pos Hpos).
  split; [|split].
  - intros Hlt. by rewrite Hlt, (ltb_asym _ _ Hlt).
  - intros Hlt. by rewrite Hlt, (ltb_asym _ _ Hlt).
  - intros Hn1 Hn2. by rewrite Hn1, Hn2.
Qed.

End Recombination.

(** ** The decoder as a whole *)

Lemma list_position_last {A : Type} (l : list A) :
  l ≠ [] → list_position l (-1) = Ok (pred (length l)).
Proof.
  intros Hl. unfold list_position, len. simpl.
  destruct l as [|x l]; [done|]. simpl length.
  destruct (Z.leb_spec 0 (-1 + Z.of_nat (S (length l)))); [|lia].
  destruct (Z.ltb_spec (-1 + Z.of_nat (S (length l))) (Z.of_nat (S (length l))));
    [|lia].
  simpl. f_equal. lia.
Qed.

Section DecoderTheorems.

Context {C : Type} `{Countable C}.
Variable lm : LM C.
Variable tm : TM.
Variable opts_s : Z.
Variable itervalues : gmap (state C) (hypothesis C) → list (hypothesis C).
Variable max_depth : nat.
Hypothesis itervalues_perm :
  ∀ m : gmap (state C) (hypothesis C), itervalues m ≡ₚ (map_to_list m).*2.

Abbreviation stack := (gmap (state C) (hypothesis C)).

(** The loop runs over the positions [0 .. len f - 1]. *)
Lemma decode_stacks_positions f :
  decode_stacks lm tm opts_s itervalues f =
  for_each (process_stack lm tm opts_s itervalues f) (initial_stacks lm f)
           (seq 0 (length f)).
Proof.
  unfold decode_stacks. do 2 f_equal.
  rewrite pyslice_0_minus_1, length_take.
  pose proof (initial_stacks_ok lm tm f) as [Hlen _]. lia.
Qed.

(** C6. A reachable hypothesis is assigned to the last stack only if its
    state covers the whole sentence and has no gap; and when the loop
    ends, which it always does, the last stack files nothing but such
    hypotheses, each under its own state. *)
Theorem final_stack_purity f :
  (∀ (stacks : list stack) (h : hypothesis C),
      length stacks = S (length f) → reachable lm tm f h →
      list_position stacks (assign_stack (h_state h)) = Ok (length f) →
      i (h_state h) = len f ∧ gap (h_state h) = None) ∧
  ∃ stacks (final : stack),
    decode_stacks lm tm opts_s itervalues f = Ok stacks ∧
    stacks !! length f = Some final ∧
    ∀ st h, final !! st = Some h →
      h_state h = st ∧ i st = len f ∧ gap st = None.
Proof.
  split.
  - intros stacks h Hlen Hh Hpos.
    apply (reachable_state_ok lm), state_ok_assign_stack in Hh as [Hj Hlast].
    rewrite list_position_ok in Hpos by (unfold len in *; lia).
    injection Hpos as Hpos. apply Hlast. unfold len in *. lia.
  - destruct (decode_stacks_ok lm tm opts_s itervalues itervalues_perm f)
      as (stacks & Hdec & Hlen & Hall).
    destruct (lookup_lt_is_Some_2 stacks (length f)) as [final Hfinal];
      [lia|].
    exists stacks, final. do 2 (split; [done|]). intros st h Hst.
    destruct (Hall _ _ _ _ Hfinal Hst) as (Hstate & Hassign & Hh).
    apply (reachable_state_ok lm), state_ok_assign_stack in Hh as [_ Hlast].
    rewrite Hstate in Hlast. by destruct Hlast.
Qed.

(** C10. For the empty sentence there is one stack, which holds the root
    alone; no stack is expanded; the winner is the root, with score 0;
    and the translation is the empty string. *)
Theorem decode_empty_sentence :
  decode_stacks lm tm opts_s itervalues [] =
    Ok [ {[ initial_state lm := root lm ]} ] ∧
  decode lm tm opts_s itervalues [] =
    Ok (Hyp 0%float None None (State 0 None (lm_begin lm))) ∧
  translate lm tm opts_s itervalues max_depth [] = Ok EmptyString.
Proof.
  assert (itervalues {[ initial_state lm := root lm ]} = [root lm]) as Hvals.
  { apply Permutation_singleton_r.
    by rewrite itervalues_perm, map_to_list_singleton. }
  assert (decode lm tm opts_s itervalues [] = Ok (root lm)) as Hdec.
  { unfold decode, decode_stacks. simpl.
    unfold select_winner. simpl. by rewrite insert_empty, Hvals. }
  split; [|split; [done|]].
  { unfold decode_stacks, initial_stacks. simpl. by rewrite insert_empty. }
  unfold translate. by rewrite Hdec.
Qed.

(** The hypotheses that are expanded, for a beam that is not negative:
    a prefix of the stack in descending order of score, as long as the
    beam allows. *)
Lemma prune_top (stk : stack) :
  0 ≤ opts_s →
  ∃ dropped,
    prune opts_s itervalues stk ++ dropped ≡ₚ itervalues stk ∧
    length (prune opts_s itervalues stk) =
      Nat.min (Z.to_nat opts_s) (length (itervalues stk)) ∧
    (Forall (fun h => (logprob h =? logprob h)%float = true)
            (itervalues stk) →
     StronglySorted (not_below logprob)
                    (prune opts_s itervalues stk ++ dropped)).
Proof.
  intros Hs. unfold prune. rewrite pyslice_0_take by done.
  set (l := sorted (fun h => (- logprob h)%float) (itervalues stk)).
  exists (drop (Z.to_nat opts_s) l). rewrite take_drop. split; [|split].
  - apply sorted_perm.
  - rewrite length_take. f_equal. apply Permutation_length, sorted_perm.
  - apply sorted_descending.
Qed.

(** C5. The loop visits the stacks at the positions [0 .. len f - 1], in
    this order, and so never the last of the [len f + 1] stacks.  At each
    position it expands the hypotheses of [prune]; for a beam that is
    not negative these are a prefix, of the length of the beam if the
    stack has that many, of the hypotheses of the stack in descending
    order of score (no hypothesis after another in this order has a
    greater score, when no score is NaN).  Expanding [h] files, for each
    extension of the state of [h], a hypothesis whose score is the score
    of [h] plus the score of the extension. *)
Theorem pruning_and_expansion_order f :
  0 ≤ opts_s →
  decode_stacks lm tm opts_s itervalues f =
    for_each (process_stack lm tm opts_s itervalues f) (initial_stacks lm f)
             (seq 0 (length f)) ∧
  length (initial_stacks lm f) = S (length f) ∧
  (∀ stacks idx,
      process_stack lm tm opts_s itervalues f stacks idx =
      for_each (expand lm tm f) stacks
               (prune opts_s itervalues (stacks !!! idx))) ∧
  (∀ stk : stack, ∃ dropped,
      prune opts_s itervalues stk ++ dropped ≡ₚ itervalues stk ∧
      length (prune opts_s itervalues stk) =
        Nat.min (Z.to_nat opts_s) (length (itervalues stk)) ∧
      (Forall (fun h => (logprob h =? logprob h)%float = true)
              (itervalues stk) →
       StronglySorted (fun a b => (logprob a <? logprob b)%float = false)
                      (prune opts_s itervalues stk ++ dropped))) ∧
  (∀ stacks h,
      expand lm tm f stacks h =
      extensions ←! extend_state lm tm (h_state h) f;
      for_each (fun stacks (e : extension) =>
                  recombine stacks e.1.1
                    (Hyp (logprob h + e.1.2)%float (Some h) (Some e.2) e.1.1))
               stacks extensions).
Proof.
  intros Hs. split; [apply decode_stacks_positions|].
  split; [apply (initial_stacks_ok lm tm f)|].
  split; [done|]. split; [intros stk; by apply prune_top|].
  intros stacks h. unfold expand. destruct extend_state as [exts|]; [|done].
  simpl. revert stacks. induction exts as [|[[st lp] ph] exts IH];
    intros stacks; simpl; [done|].
  destruct recombine; simpl; [apply IH|done].
Qed.

(** *** Decoding succeeds *)

Lemma pyslice_single (f : list string) (a : Z) :
  0 ≤ a < len f → ∃ w, w ∈ f ∧ pyslice f a (a + 1) = [w].
Proof.
  intros Ha. unfold pyslice, len in *.
  rewrite !adjust_index_nonneg by lia.
  rewrite !Z.min_l by lia.
  destruct (lookup_lt_is_Some_2 f (Z.to_nat a)) as [w Hw]; [lia|].
  exists w. split; [by eapply list_elem_of_lookup_2|].
  replace (Z.to_nat (a + 1 - a)) with 1%nat by lia.
  rewrite <- (take_drop_middle _ _ _ Hw) at 1.
  rewrite drop_app_length'; [done|]. rewrite length_take.
  apply lookup_lt_Some in Hw. lia.
Qed.

Section Success.

Variable f : list string.

(** The beam keeps at least one hypothesis; every token of the sentence
    has an entry; every entry lists at least one phrase. *)
Hypothesis beam_positive : 1 ≤ opts_s.
Hypothesis tokens_covered : ∀ w, w ∈ f → is_Some (tm !! [w]).
Hypothesis entries_inhabited :
  ∀ span phrases, tm !! span = Some phrases → phrases ≠ [].

(** A good state that does not belong to the last stack has an
    extension. *)
Lemma extend_state_inhabited (s : state C) :
  state_ok tm f s → assign_stack s < len f →
  ∃ extensions (e : extension),
    extend_state lm tm s f = Ok extensions ∧ e ∈ extensions.
Proof.
  intros [Hi Hg] Hlt. unfold assign_stack in Hlt.
  destruct (gap s) as [[g0 g1]|] eqn:Hgap.
  - destruct Hg as (_ & _ & [phs Hphs]). simpl in Hphs.
    pose proof (entries_inhabited _ _ Hphs) as Hne.
    destruct phs as [|ph phs]; [done|].
    rewrite (extend_state_gap lm tm s f g0 g1 _ Hgap Hphs).
    do 2 eexists. split; [done|]. simpl. left.
  - destruct (elem_of_extend_state_no_gap lm tm s f Hgap)
      as (exts & Hexts & Hin).
    destruct (pyslice_single f (i s)) as (w & Hw & Hslice); [lia|].
    destruct (tokens_covered w Hw) as [phs Hphs].
    pose proof (entries_inhabited _ _ Hphs) as Hne.
    destruct phs as [|ph phs]; [done|].
    exists exts, (yield_for lm s (i s + 1) None
                    (bool_decide (i s + 1 = len f)) ph).
    split; [done|]. apply Hin. left.
    exists (i s + 1), (ph :: phs), ph. rewrite Hslice.
    repeat split; [lia..|done|left].
Qed.

Lemma prune_inhabited (stk : stack) st (h : hypothesis C) :
  stk !! st = Some h → ∃ h', h' ∈ prune opts_s itervalues stk.
Proof.
  intros Hst. unfold prune. rewrite pyslice_0_take by lia.
  assert (h ∈ sorted (fun h => (- logprob h)%float) (itervalues stk))
    as Hin.
  { rewrite sorted_perm. apply (elem_of_itervalues _ itervalues_perm).
    eauto. }
  destruct (sorted _ _) as [|h' l]; [by apply elem_of_nil in Hin|].
  exists h'. replace (Z.to_nat opts_s) with (S (pred (Z.to_nat opts_s)))
    by lia.
  left.
Qed.

Lemma process_stack_frontier (stacks : list stack) (n : nat) :
  frontier lm tm f n stacks → (n < length f)%nat →
  ∃ stacks', process_stack lm tm opts_s itervalues f stacks n = Ok stacks' ∧
    frontier lm tm f (S n) stacks'.
Proof.
  intros [Hok (idx & Hidx & Hne)] Hn.
  destruct (process_stack_ok lm tm opts_s itervalues itervalues_perm
              f stacks n Hok)
    as (stacks' & Hproc & Hok' & Hgrows & Hnew).
  exists stacks'. split; [done|]. split; [done|].
  destruct (decide (idx = n)) as [->|Hne']; [|exists idx; split; [lia|auto]].
  destruct Hne as (stk & st & h & Hstk & Hst).
  rewrite (list_lookup_total_correct _ _ _ Hstk) in Hnew.
  destruct (prune_inhabited stk st h Hst) as [h' Hh'].
  pose proof Hh' as [st' Hst']%(elem_of_prune _ _ itervalues_perm).
  destruct Hok as [Hlen Hall].
  destruct (Hall _ _ _ _ Hstk Hst') as (<- & Hassign & Hreach).
  pose proof (reachable_state_ok lm tm f h' Hreach) as Hstate.
  destruct (extend_state_inhabited (h_state h') Hstate)
    as (exts & e & Hexts & He); [unfold len; lia|].
  destruct (extend_state_ok lm tm _ f exts e Hstate Hexts He)
    as [Hstate' Hup].
  apply state_ok_assign_stack in Hstate' as [Hbound _].
  exists (Z.to_nat (assign_stack e.1.1)).
  split; [unfold len in *; lia|]. by eapply Hnew.
Qed.

Lemma loop_frontier (k n : nat) (stacks : list stack) :
  frontier lm tm f n stacks → (n + k = length f)%nat →
  ∃ stacks',
    for_each (process_stack lm tm opts_s itervalues f) stacks (seq n k)
      = Ok stacks' ∧
    frontier lm tm f (length f) stacks'.
Proof.
  revert n stacks. induction k as [|k IH]; intros n stacks Hfr Hnk; simpl.
  - exists stacks. split; [done|]. by replace (length f) with n by lia.
  - destruct (process_stack_frontier stacks n Hfr) as (stacks1 & -> & Hfr1);
      [lia|].
    simpl. apply IH; [done|lia].
Qed.

(** With a beam of at least one hypothesis and a table that covers
    every token and has no empty entry, the last stack is not empty and
    a winner is selected; it covers the sentence and has no gap. *)
Lemma decode_succeeds :
  ∃ stacks (final : stack) winner,
    decode_stacks lm tm opts_s itervalues f = Ok stacks ∧
    stacks !! length f = Some final ∧
    itervalues final ≠ [] ∧
    decode lm tm opts_s itervalues f = Ok winner ∧
    winner ∈ itervalues final ∧
    i (h_state winner) = len f ∧ gap (h_state winner) = None.
Proof.
  destruct (loop_frontier (length f) 0 (initial_stacks lm f))
    as (stacks & Hloop & Hok & idx & Hidx & Hne); [|done|].
  { split; [apply initial_stacks_ok|]. exists 0%nat. split; [lia|].
    pose proof (initial_stacks_ok lm tm f) as [Hlen _].
    destruct (lookup_lt_is_Some_2 (initial_stacks lm f) 0) as [stk Hstk];
      [lia|].
    exists stk, (initial_state lm), (root lm). split; [done|].
    unfold initial_stacks in Hstk.
    rewrite list_lookup_insert_eq in Hstk
      by (rewrite length_app, length_fmap; simpl; lia).
    injection Hstk as <-. apply lookup_insert_eq. }
  rewrite <- decode_stacks_positions in Hloop.
  assert (idx = length f) as -> by lia.
  destruct Hne as (final & st & h & Hfinal & Hst).
  assert (itervalues final ≠ []) as Hvals.
  { intros Hnil.
    assert (h ∈ itervalues final) as Hin
      by (apply (elem_of_itervalues _ itervalues_perm); eauto).
    rewrite Hnil in Hin. by apply elem_of_nil in Hin. }
  destruct (py_max_elem logprob _ Hvals) as (winner & Hmax & Hwin).
  exists stacks, final, winner. do 3 (split; [done|]).
  destruct Hok as [Hlen Hall].
  assert (decode lm tm opts_s itervalues f = Ok winner) as Hdec.
  { unfold decode. rewrite Hloop. simpl. unfold select_winner.
    rewrite list_position_last by (by destruct stacks).
    simpl. rewrite Hlen. simpl.
    by rewrite (list_lookup_total_correct _ _ _ Hfinal). }
  do 2 (split; [done|]).
  apply (elem_of_itervalues _ itervalues_perm) in Hwin as [st' Hst'].
  destruct (Hall _ _ _ _ Hfinal Hst') as (<- & Hassign & Hreach).
  apply (reachable_state_ok lm), state_ok_assign_stack in Hreach
    as [_ Hlast].
  by apply Hlast.
Qed.

End Success.

(** C8, as the code has it.  If the beam keeps at least one hypothesis,
    every token of the sentence has a table entry and every table entry
    lists at least one phrase, then the last stack is not empty when the
    winner is selected, and [max] returns a winner. *)
Theorem decoding_never_fails f :
  1 ≤ opts_s →
  (∀ w, w ∈ f → is_Some (tm !! [w])) →
  (∀ span phrases, tm !! span = Some phrases → phrases ≠ []) →
  ∃ stacks (final : stack) winner,
    decode_stacks lm tm opts_s itervalues f = Ok stacks ∧
    stacks !! length f = Some final ∧
    itervalues final ≠ [] ∧
    decode lm tm opts_s itervalues f = Ok winner.
Proof.
  intros Hbeam Htokens Hentries.
  destruct (decode_succeeds f Hbeam Htokens Hentries)
    as (stacks & final & winner & ? & ? & ? & ? & _).
  by exists stacks, final, winner.
Qed.

End DecoderTheorems.

(** ** The copy fallback *)

Lemma inject_words_lookup (tm : TM) (words span : list string) :
  foldl inject_word tm words !! span =
  match tm !! span with
  | Some phrases => Some phrases
  | None =>
      match span with
      | [word] =>
          if decide (word ∈ words) then Some [Phrase word 0%float] else None
      | _ => None
      end
  end.
Proof.
  revert tm. induction words as [|w0 words IH]; intros tm; simpl.
  - destruct (tm !! span); [done|]. by destruct span as [|w [|]].
  - rewrite IH. unfold inject_word.
    destruct (tm !! [w0]) as [phs0|] eqn:Hw0.
    + destruct (tm !! span) as [phs|] eqn:Hspan; [done|].
      destruct span as [|w [|]]; try done.
      apply decide_ext. rewrite elem_of_cons.
      split; [by right|]. intros [->|?]; [congruence|done].
    + destruct (decide (span = [w0])) as [->|Hne].
      * rewrite lookup_insert_eq, Hw0.
        destruct (decide (w0 ∈ w0 :: words)) as [|Hn]; [done|].
        destruct Hn. by left.
      * rewrite lookup_insert_ne by done.
        destruct (tm !! span) as [phs|] eqn:Hspan; [done|].
        destruct span as [|w [|]]; try done.
        apply decide_ext. rewrite elem_of_cons.
        split; [by right|]. intros [->|?]; [congruence|done].
Qed.

(** The table after the fallback: the entries it had, and for every token
    of the input without a one-token entry the entry that copies it with
    log-probability 0.  This depends on which tokens occur, not on the
    order the loop visits them in. *)
Lemma inject_oov_lookup (tm : TM) (french : list (list string))
    (span : list string) :
  inject_oov tm french !! span =
  match tm !! span with
  | Some phrases => Some phrases
  | None =>
      match span with
      | [word] =>
          if decide (word ∈ concat french)
          then Some [Phrase word 0%float] else None
      | _ => None
      end
  end.
Proof.
  unfold inject_oov. rewrite inject_words_lookup.
  destruct (tm !! span); [done|]. destruct span as [|w [|]]; try done.
  apply decide_ext, elem_of_remove_dups.
Qed.

(** After the fallback every token of every sentence has an entry. *)
Lemma inject_oov_covers (tm : TM) (french : list (list string)) f w :
  f ∈ french → w ∈ f → is_Some (inject_oov tm french !! [w]).
Proof.
  intros Hf Hw. rewrite inject_oov_lookup.
  destruct (tm !! [w]); [by eexists|].
  destruct (decide (w ∈ concat french)) as [|Hn]; [by eexists|].
  destruct Hn. apply list_elem_of_In, in_concat. exists f.
  by rewrite <- !list_elem_of_In.
Qed.

(** The fallback adds no empty entry. *)
Lemma inject_oov_inhabited (tm : TM) (french : list (list string)) :
  (∀ span phrases, tm !! span = Some phrases → phrases ≠ []) →
  ∀ span phrases, inject_oov tm french !! span = Some phrases → phrases ≠ [].
Proof.
  intros Htm span phrases. rewrite inject_oov_lookup.
  destruct (tm !! span) as [phs|] eqn:Hspan.
  - intros [= <-]. by eapply Htm.
  - destruct span as [|w [|]]; try done.
    destruct (decide (w ∈ concat french)); [|done]. by intros [= <-].
Qed.

(** With a beam of at least one hypothesis and a loaded table without
    empty entries, every sentence of the input is decoded after the
    fallback. *)
Lemma decode_after_fallback {C : Type} `{Countable C} (lm : LM C) (tm : TM)
    (opts_s : Z)
    (itervalues : gmap (state C) (hypothesis C) → list (hypothesis C))
    (french : list (list string)) (f : list string) :
  (∀ m, itervalues m ≡ₚ (map_to_list m).*2) →
  1 ≤ opts_s →
  (∀ span phrases, tm !! span = Some phrases → phrases ≠ []) →
  f ∈ french →
  ∃ winner,
    decode lm (inject_oov tm french) opts_s itervalues f = Ok winner ∧
    i (h_state winner) = len f ∧ gap (h_state winner) = None.
Proof.
  intros Hperm Hbeam Htm Hf.
  destruct (decode_succeeds lm (inject_oov tm french) opts_s itervalues
              Hperm f Hbeam)
    as (_ & _ & winner & _ & _ & _ & Hdec & _ & Hi & Hgap).
  - intros w Hw. by eapply inject_oov_covers.
  - by apply inject_oov_inhabited.
  - by exists winner.
Qed.

(** ** The theorems at the small instance *)

Import Example.

Lemma itervalues1_perm m : itervalues1 m ≡ₚ (map_to_list m).*2.
Proof. done. Defined.

Lemma tm1_covers w : w ∈ f1 → ∃ ph phs, tm1 !! [w] = Some (ph :: phs).
Proof.
  intros Hw. unfold f1 in Hw.
  repeat (apply elem_of_cons in Hw as [->|Hw]);
    [by do 2 eexists..|by apply elem_of_nil in Hw].
Defined.

Lemma tm2_covers w : w ∈ f1 → ∃ ph phs, tm2 !! [w] = Some (ph :: phs).
Proof.
  intros Hw. unfold f1 in Hw.
  repeat (apply elem_of_cons in Hw as [->|Hw]);
    [by do 2 eexists..|by apply elem_of_nil in Hw].
Defined.

Lemma tm1_inhabited span phrases : tm1 !! span = Some phrases → phrases ≠ [].
Proof.
  intros Hin%elem_of_list_to_map_2.
  repeat (apply elem_of_cons in Hin as [[= -> ->]|Hin]); try done.
  by apply elem_of_nil in Hin.
Defined.

Lemma h_a_reachable : reachable lm1 tm1 f1 h_a.
Proof.
  eapply reachable_extend; [apply reachable_root|vm_compute; reflexivity|].
  left.
Defined.

Lemma h_ab_joint_reachable : reachable lm1 tm1 f1 h_ab_joint.
Proof.
  eapply reachable_extend; [apply reachable_root|vm_compute; reflexivity|].
  do 2 right. left.
Defined.

Lemma h_ab_split_reachable : reachable lm1 tm1 f1 h_ab_split.
Proof.
  eapply reachable_extend; [apply h_a_reachable|vm_compute; reflexivity|].
  left.
Defined.

Lemma h_skip_reachable : reachable lm1 tm1 f1 h_skip.
Proof.
  eapply reachable_extend; [apply reachable_root|vm_compute; reflexivity|].
  right. left.
Defined.

Lemma h_fill_reachable : reachable lm1 tm1 f1 h_fill.
Proof.
  eapply reachable_extend; [apply h_skip_reachable|vm_compute; reflexivity|].
  left.
Defined.

(** Witness of C1: the extension of the state after [A B], which ends the
    sentence [a b c]; its score [-1.625] is [-0.125] for the phrase, [-1]
    for the word and [-0.5] for the end of the sentence. *)
Lemma extend_state_contiguous_witness :
  gap s_ab = None ∧
  extend_state lm1 tm1 s_ab f1 =
    Ok [(State 3 None ["C"%string], (-1.625)%float,
         Phrase "C" (-0.125)%float)] ∧
  ∃ extensions, extend_state lm1 tm1 s_ab f1 = Ok extensions ∧
    ∀ e : extension,
      (e ∈ extensions ∧ gap e.1.1 = None) ↔
      ∃ j phrases ph,
        i s_ab < j ≤ len f1 ∧ tm1 !! pyslice f1 (i s_ab) j = Some phrases ∧
        ph ∈ phrases ∧
        let words := split (english ph) in
        let lm_state' := lm_feed lm1 (lm_state s_ab) words in
        e = (State j None lm_state',
             (foldl PrimFloat.add (phrase_logprob ph)
                    (lm_scores lm1 (lm_state s_ab) words)
              + (if bool_decide (j = len f1) then lm_end lm1 lm_state' else 0))
             %float,
             ph).
Proof.
  split; [reflexivity|]. split; [vm_compute; reflexivity|].
  apply (extend_state_contiguous lm1 tm1 s_ab f1). reflexivity.
Defined.

(** Witness of C2: the extensions of the initial state for [a b c]. *)
Lemma extend_state_skip_witness :
  gap (initial_state lm1) = None ∧
  ∃ extensions, extend_state lm1 tm1 (initial_state lm1) f1 = Ok extensions ∧
    (State 2 (Some (0, 1)) ["B"%string], (-1)%float, Phrase "B" 0%float)
      ∈ extensions ∧
    ∀ e : extension,
      (e ∈ extensions ∧ gap e.1.1 ≠ None) ↔
      ∃ j k phrases ph,
        i (initial_state lm1) < j ≤ len f1 ∧
        is_Some (tm1 !! pyslice f1 (i (initial_state lm1)) j) ∧
        j < k ≤ len f1 ∧ tm1 !! pyslice f1 j k = Some phrases ∧
        ph ∈ phrases ∧
        let words := split (english ph) in
        e = (State k (Some (i (initial_state lm1), j))
               (lm_feed lm1 (lm_state (initial_state lm1)) words),
             (foldl PrimFloat.add (phrase_logprob ph)
                    (lm_scores lm1 (lm_state (initial_state lm1)) words) + 0)
             %float,
             ph).
Proof.
  split; [reflexivity|].
  destruct (extend_state_skip lm1 tm1 (initial_state lm1) f1)
    as (extensions & Hexts & Hin & _); [reflexivity|].
  exists extensions. split; [exact Hexts|]. split; [|exact Hin].
  apply Hin. exists 1, 2, [Phrase "B" 0%float], (Phrase "B" 0%float).
  split; [unfold len; simpl; lia|].
  split; [by eexists|].
  split; [unfold len; simpl; lia|].
  split; [vm_compute; reflexivity|]. split; [left|reflexivity].
Defined.

(** Counterexample to C2 as stated.  Under [tm2] the span [a b] has a
    table entry, which lists no phrase.  From the initial state the
    extension that skips [a b] and translates [c] is yielded, and no
    extension without gap leads to the coverage index 2. *)
Lemma extend_state_skip_without_contiguous :
  tm2 !! pyslice f1 0 2 = Some [] ∧
  ∃ extensions,
    extend_state lm1 tm2 (initial_state lm1) f1 = Ok extensions ∧
    (State 3 (Some (0, 2)) ["C"%string], (-1.5)%float,
     Phrase "C" (-0.5)%float) ∈ extensions ∧
    ∀ e : extension, e ∈ extensions → gap e.1.1 = None → i e.1.1 ≠ 2.
Proof.
  split; [vm_compute; reflexivity|].
  eexists. split; [vm_compute; reflexivity|]. split; [do 2 right; left|].
  intros e He Hgap.
  repeat (apply elem_of_cons in He as [->|He]); try discriminate.
  by apply elem_of_nil in He.
Defined.

(** Witness of C3: filling the gap [(0, 2)] after [C], which ends the
    sentence; the score [-3] is [-0.5] for the phrase, [-1] for each of
    its two words and [-0.5] for the end of the sentence. *)
Lemma extend_state_fill_witness :
  gap s_c = Some (0, 2) ∧
  tm1 !! pyslice f1 0 2 = Some [Phrase "A B" (-0.5)%float] ∧
  extend_state lm1 tm1 s_c f1 =
    Ok [(State 3 None ["B"%string], (-3)%float, Phrase "A B" (-0.5)%float)].
Proof.
  split; [reflexivity|]. split; [vm_compute; reflexivity|].
  destruct (extend_state_fill lm1 tm1 s_c f1 0 2
              [Phrase "A B" (-0.5)%float]) as [Heq _];
    [reflexivity|vm_compute; reflexivity|].
  rewrite Heq. vm_compute. reflexivity.
Defined.

(** Witness of C4: the two hypotheses for [s_ab], whose scores are equal. *)
Lemma recombination_witness :
  list_position empty_stacks (assign_stack s_ab) = Ok 2%nat ∧
  (empty_stacks !!! 2%nat) !! s_ab = None ∧
  (stacks1 ←! recombine empty_stacks s_ab h_ab_joint;
   recombine stacks1 s_ab h_ab_split) =
    Ok (<[2%nat := <[s_ab := h_ab_joint]> (empty_stacks !!! 2%nat)]>
          empty_stacks).
Proof.
  split; [reflexivity|]. split; [reflexivity|].
  destruct (recombination empty_stacks s_ab h_ab_joint h_ab_split 2)
    as (_ & _ & Htie); [reflexivity..|].
  destruct Htie as [Heq _]; [reflexivity..|]. exact Heq.
Defined.

(** Counterexample to C4 as stated: [h_ab_joint] and [h_ab_split] are both
    built for [a b c], reach the same state and have the same score; the
    one that arrives first stays on file, so the stack depends on the order
    of arrival. *)
Lemma recombination_tie_keeps_first :
  reachable lm1 tm1 f1 h_ab_joint ∧ reachable lm1 tm1 f1 h_ab_split ∧
  h_state h_ab_joint = s_ab ∧ h_state h_ab_split = s_ab ∧
  logprob h_ab_joint = logprob h_ab_split ∧
  ∃ stacks12 stacks21,
    (stacks1 ←! recombine empty_stacks s_ab h_ab_joint;
     recombine stacks1 s_ab h_ab_split) = Ok stacks12 ∧
    (stacks2 ←! recombine empty_stacks s_ab h_ab_split;
     recombine stacks2 s_ab h_ab_joint) = Ok stacks21 ∧
    (stacks12 !!! 2%nat) !! s_ab = Some h_ab_joint ∧
    (stacks21 !!! 2%nat) !! s_ab = Some h_ab_split ∧
    h_ab_joint ≠ h_ab_split ∧ stacks12 ≠ stacks21.
Proof.
  split; [apply h_ab_joint_reachable|]. split; [apply h_ab_split_reachable|].
  do 3 (split; [reflexivity|]).
  assert (h_ab_joint ≠ h_ab_split) as Hne by discriminate.
  rewrite !(recombine_fresh empty_stacks s_ab _ 2) by reflexivity.
  unfold rbind.
  rewrite !(recombine_again empty_stacks s_ab _ _ 2) by reflexivity.
  assert ((logprob h_ab_joint <? logprob h_ab_split)%float = false) as ->
    by reflexivity.
  assert ((logprob h_ab_split <? logprob h_ab_joint)%float = false) as ->
    by reflexivity.
  do 2 eexists. do 2 (split; [reflexivity|]).
  do 2 (split; [by rewrite list_lookup_total_insert_eq, lookup_insert_eq
                  by (simpl; lia)|]).
  split; [done|]. intros Heq.
  apply (f_equal (fun stacks => (stacks !!! 2%nat) !! s_ab)) in Heq.
  rewrite !list_lookup_total_insert_eq, !lookup_insert_eq in Heq
    by (simpl; lia).
  congruence.
Defined.

(** Witness of C5: a beam of two hypotheses. *)
Lemma pruning_and_expansion_order_witness :
  0 ≤ 2 ∧
  decode_stacks lm1 tm1 2 itervalues1 f1 =
    for_each (process_stack lm1 tm1 2 itervalues1 f1) (initial_stacks lm1 f1)
             (seq 0 (length f1)) ∧
  ∃ dropped,
    prune 2 itervalues1 stack1 ++ dropped ≡ₚ itervalues1 stack1 ∧
    length (itervalues1 stack1) = 3%nat ∧
    length (prune 2 itervalues1 stack1) = 2%nat ∧
    StronglySorted (fun a b => (logprob a <? logprob b)%float = false)
                   (prune 2 itervalues1 stack1 ++ dropped).
Proof.
  split; [lia|].
  destruct (pruning_and_expansion_order lm1 tm1 2 itervalues1 f1)
    as (Hloop & _ & _ & Hprune & _); [lia|].
  split; [exact Hloop|].
  destruct (Hprune stack1) as (dropped & Hperm & Hlen & Hsorted).
  exists dropped. split; [exact Hperm|].
  split; [vm_compute; reflexivity|]. split; [vm_compute; reflexivity|].
  apply Hsorted. vm_compute. repeat constructor.
Defined.

(** Witness of C6: the last stack for [a b c]. *)
Lemma final_stack_purity_witness :
  (∀ m, itervalues1 m ≡ₚ (map_to_list m).*2) ∧
  ∃ stacks final,
    decode_stacks lm1 tm1 1 itervalues1 f1 = Ok stacks ∧
    stacks !! length f1 = Some final ∧
    ∀ st h, final !! st = Some h →
      h_state h = st ∧ i st = len f1 ∧ gap st = None.
Proof.
  split; [apply itervalues1_perm|].
  apply (final_stack_purity lm1 tm1 1 itervalues1 itervalues1_perm f1).
Defined.

(** Witness of C7: the chain root, [B] with the gap, [A] in the gap. *)
Lemma coverage_monotone_witness :
  reachable lm1 tm1 f1 h_fill ∧
  monotone_chain h_fill ∧
  ∀ a, a ∈ ancestors h_fill →
    progress (h_state a) < progress (h_state h_fill) ∧
    i (h_state a) ≤ i (h_state h_fill) ∧
    h_state a ≠ h_state h_fill ∧ a ≠ h_fill.
Proof.
  split; [apply h_fill_reachable|].
  apply (coverage_monotone lm1 tm1 f1 h_fill h_fill_reachable).
Defined.

(** Witness of C8: [a b c] with a beam of one hypothesis. *)
Lemma decoding_never_fails_witness :
  (∀ m, itervalues1 m ≡ₚ (map_to_list m).*2) ∧
  1 ≤ 1 ∧
  (∀ w, w ∈ f1 → is_Some (tm1 !! [w])) ∧
  (∀ span phrases, tm1 !! span = Some phrases → phrases ≠ []) ∧
  ∃ stacks final winner,
    decode_stacks lm1 tm1 1 itervalues1 f1 = Ok stacks ∧
    stacks !! length f1 = Some final ∧
    itervalues1 final ≠ [] ∧
    decode lm1 tm1 1 itervalues1 f1 = Ok winner.
Proof.
  assert (∀ w, w ∈ f1 → is_Some (tm1 !! [w])) as Hcovers.
  { intros w Hw. destruct (tm1_covers w Hw) as (ph & phs & ->). by eexists. }
  split; [apply itervalues1_perm|]. split; [lia|]. split; [exact Hcovers|].
  split; [exact tm1_inhabited|].
  apply (decoding_never_fails lm1 tm1 1 itervalues1 itervalues1_perm f1);
    [lia|exact Hcovers|exact tm1_inhabited].
Defined.

(** Counterexample to C8 as stated.  Every token of [a b c] has a
    candidate in [tm1] and in [tm2], and the fallback changes neither
    table; yet with a beam of no hypothesis under [tm1], and with a beam of
    one hypothesis under [tm2], whose entry for [a b] lists no phrase, the
    last stack is empty and [max] raises. *)
Lemma decoding_fails_with_fallback :
  (∀ w, w ∈ f1 → ∃ ph phs, tm1 !! [w] = Some (ph :: phs)) ∧
  inject_oov tm1 [f1] = tm1 ∧
  decode lm1 tm1 0 itervalues1 f1 = Raise ValueError ∧
  (∀ w, w ∈ f1 → ∃ ph phs, tm2 !! [w] = Some (ph :: phs)) ∧
  inject_oov tm2 [f1] = tm2 ∧
  decode lm1 tm2 1 itervalues1 f1 = Raise ValueError.
Proof.
  split; [exact tm1_covers|]. split; [vm_compute; reflexivity|].
  split; [vm_compute; reflexivity|].
  split; [exact tm2_covers|]. split; [vm_compute; reflexivity|].
  vm_compute; reflexivity.
Defined.

(** Witness of C9: the gap [(0, 1)] of [h_skip]. *)
Lemma gap_lookup_succeeds_witness :
  reachable lm1 tm1 f1 h_skip ∧
  gap (h_state h_skip) = Some (0, 1) ∧
  ∃ phrases,
    tm1 !! pyslice f1 0 1 = Some phrases ∧
    extend_state lm1 tm1 (h_state h_skip) f1 =
      Ok (yield_for lm1 (h_state h_skip) (i (h_state h_skip)) None
            (bool_decide (i (h_state h_skip) = len f1)) <$> phrases).
Proof.
  split; [apply h_skip_reachable|]. split; [reflexivity|].
  apply (gap_lookup_succeeds lm1 tm1 f1 h_skip 0 1 h_skip_reachable).
  reflexivity.
Defined.

(** Witness of C10: the empty sentence with a beam of one hypothesis. *)
Lemma decode_empty_sentence_witness :
  (∀ m, itervalues1 m ≡ₚ (map_to_list m).*2) ∧
  decode lm1 tm1 1 itervalues1 [] =
    Ok (Hyp 0%float None None (State 0 None (lm_begin lm1))) ∧
  translate lm1 tm1 1 itervalues1 900 [] = Ok EmptyString.
Proof.
  split; [apply itervalues1_perm|].
  apply (decode_empty_sentence lm1 tm1 1 itervalues1 900 itervalues1_perm).
Defined.

(** ** More about the search graph *)

Section GraphExtras.

Context {C : Type} `{Countable C}.
Variable lm : LM C.
Variable tm : TM.

(** The phrase of an extension is a candidate of the table for the span
    of its step. *)
Lemma extension_from_table (s : state C) f extensions (e : extension) :
  extend_state lm tm s f = Ok extensions → e ∈ extensions →
  ∃ phrases,
    tm !! pyslice f (step_span s e.1.1).1 (step_span s e.1.1).2
      = Some phrases ∧
    e.2 ∈ phrases.
Proof.
  intros Hexts He. unfold step_span.
  destruct (gap s) as [[g0 g1]|] eqn:Hgap.
  - unfold extend_state in Hexts. rewrite Hgap in Hexts. simpl in *.
    destruct (tm !! pyslice f g0 g1) as [phs|]; [|done].
    injection Hexts as <-.
    apply list_elem_of_fmap in He as (ph & -> & Hph).
    exists phs. by rewrite yield_for_eq.
  - destruct (elem_of_extend_state_no_gap lm tm s f Hgap)
      as (exts & Hexts' & Hin).
    rewrite Hexts in Hexts'. injection Hexts' as <-.
    apply Hin in He as [(j & phs & ph & _ & Htm & Hph & ->)
                       |(j & k & phs & ph & _ & _ & _ & Htm & Hph & ->)];
      rewrite yield_for_eq; simpl; eauto.
Qed.

(** X1. Every hypothesis the decoder can build, other than the root, has a
    predecessor it can build too, and a phrase that the table lists for
    the source span of its step. *)
Theorem chain_phrases_from_table f (h p : hypothesis C) :
  reachable lm tm f h → predecessor h = Some p →
  reachable lm tm f p ∧
  ∃ ph phrases,
    h_phrase h = Some ph ∧
    tm !! pyslice f (step_span (h_state p) (h_state h)).1
                    (step_span (h_state p) (h_state h)).2 = Some phrases ∧
    ph ∈ phrases.
Proof.
  intros Hh Hp. destruct Hh as [|h0 exts e Hh0 Hexts He]; [done|].
  destruct (extension_from_table _ _ _ _ Hexts He) as (phs & Htm & Hph).
  destruct e as [[st lp] ph]. simpl in *. injection Hp as <-.
  split; [done|]. by exists ph, phs.
Qed.

Lemma translated_new_hypothesis (h : hypothesis C) (e : extension) :
  translated (new_hypothesis h e) =
  translated h ++ xrange (step_span (h_state h) e.1.1).1
                         (step_span (h_state h) e.1.1).2.
Proof. by destruct e as [[? ?] ?]. Qed.

(** One step adds the positions of its span to the positions accounted
    for, and these are new. *)
Lemma extend_state_covers (s : state C) f extensions (e : extension) :
  state_ok tm f s →
  extend_state lm tm s f = Ok extensions → e ∈ extensions →
  let span := step_span s e.1.1 in
  (∀ p, covers e.1.1 p ↔ covers s p ∨ span.1 ≤ p < span.2) ∧
  (∀ p, covers s p → ¬ (span.1 ≤ p < span.2)) ∧
  assign_stack e.1.1 = assign_stack s + (span.2 - span.1) ∧
  span.1 < span.2.
Proof.
  intros [Hi Hg] Hexts He. unfold step_span, covers, assign_stack.
  destruct (gap s) as [[g0 g1]|] eqn:Hgap.
  - unfold extend_state in Hexts. rewrite Hgap in Hexts. simpl in *.
    destruct (tm !! pyslice f g0 g1) as [phs|]; [|done].
    injection Hexts as <-.
    apply list_elem_of_fmap in He as (ph & -> & _).
    rewrite yield_for_eq. simpl.
    split; [|split; [|lia]]; intros p; [|lia].
    destruct (decide (g0 ≤ p < g1)); split; try lia; tauto.
  - destruct (elem_of_extend_state_no_gap lm tm s f Hgap)
      as (exts & Hexts' & Hin).
    rewrite Hexts in Hexts'. injection Hexts' as <-.
    apply Hin in He as [(j & phs & ph & Hj & _ & _ & ->)
                       |(j & k & phs & ph & Hj & _ & Hk & _ & _ & ->)];
      rewrite yield_for_eq; simpl;
      (split; [|split; [|lia]]); intros p; try lia;
      destruct (decide (p < i s)); split; try lia; tauto.
Qed.

(** The positions translated along a chain are those the state accounts
    for, each once. *)
Lemma translated_spec f (h : hypothesis C) :
  reachable lm tm f h →
  NoDup (translated h) ∧
  (∀ p, p ∈ translated h ↔ covers (h_state h) p) ∧
  Z.of_nat (length (translated h)) = assign_stack (h_state h).
Proof.
  induction 1 as [|h exts e Hh (Hdup & Hin & Hlen) Hexts He].
  - split; [constructor|]. split; [|done].
    intros p. unfold covers. simpl. split; [by intros ?%elem_of_nil|lia].
  - pose proof (reachable_state_ok lm tm f h Hh) as Hok.
    destruct (extend_state_covers _ _ _ _ Hok Hexts He)
      as (Hcov & Hnew & Hassign & Hspan).
    rewrite translated_new_hypothesis, h_state_new_hypothesis.
    split; [|split].
    + apply NoDup_app. split; [done|]. split; [|apply NoDup_seqZ].
      intros p Hp%Hin Hp'%elem_of_xrange. by eapply Hnew.
    + intros p. rewrite elem_of_app, elem_of_xrange, Hin. symmetry. apply Hcov.
    + rewrite length_app, Nat2Z.inj_add, Hlen, Hassign.
      unfold xrange. rewrite length_seqZ. lia.
Qed.

(** X2. A hypothesis the decoder can build has translated every source
    position its state accounts for (those before the coverage index and
    outside the gap) exactly once, and no other; their number is the
    stack its state is assigned to. *)
Theorem translated_covers f (h : hypothesis C) :
  reachable lm tm f h →
  NoDup (translated h) ∧
  (∀ p, p ∈ translated h ↔ covers (h_state h) p) ∧
  Z.of_nat (length (translated h)) = assign_stack (h_state h).
Proof.
  intros Hh. destruct (translated_spec f h Hh) as (Hdup & Hin & Hlen).
  split; [exact Hdup|]. split; [exact Hin|exact Hlen].
Qed.

(** X3. The end of the sentence is scored on exactly the steps that
    complete the sentence: the context and score of an extension of a
    reachable hypothesis are those of [add_log_probs] with the flag set iff
    the new state is assigned to the last stack.  A hypothesis assigned to
    the last stack has no extension. *)
Theorem end_of_sentence_on_completion f (h : hypothesis C) extensions :
  reachable lm tm f h →
  extend_state lm tm (h_state h) f = Ok extensions →
  (∀ e : extension, e ∈ extensions →
     let eos := bool_decide (assign_stack e.1.1 = len f) in
     lm_state e.1.1 = (add_log_probs lm (lm_state (h_state h)) e.2 eos).1 ∧
     e.1.2 = (add_log_probs lm (lm_state (h_state h)) e.2 eos).2) ∧
  (assign_stack (h_state h) = len f → extensions = []).
Proof.
  intros Hh Hexts.
  pose proof (reachable_state_ok lm tm f h Hh) as Hok. split.
  - intros e He.
    destruct (extend_state_ok lm tm _ f _ e Hok Hexts He) as [[Hi' Hg'] _].
    destruct Hok as [Hi Hg]. revert Hi' Hg'. unfold assign_stack.
    destruct (gap (h_state h)) as [[g0 g1]|] eqn:Hgap.
    + unfold extend_state in Hexts. rewrite Hgap in Hexts. simpl in *.
      destruct (tm !! pyslice f g0 g1) as [phs|]; [|done].
      injection Hexts as <-.
      apply list_elem_of_fmap in He as (ph & -> & _).
      rewrite yield_for_eq. simpl. intros _ _.
      by rewrite Z.sub_0_r.
    + destruct (elem_of_extend_state_no_gap lm tm _ f Hgap)
        as (exts & Hexts' & Hin).
      rewrite Hexts in Hexts'. injection Hexts' as <-.
      apply Hin in He as [(j & phs & ph & Hj & _ & _ & ->)
                         |(j & k & phs & ph & Hj & _ & Hk & _ & _ & ->)];
        rewrite yield_for_eq; simpl; intros _ _.
      * by rewrite Z.sub_0_r.
      * by rewrite bool_decide_eq_false_2 by lia.
  - intros Hlast.
    apply state_ok_assign_stack in Hok as [_ Hfull].
    destruct (Hfull Hlast) as [Hi Hgap].
    unfold extend_state in Hexts. rewrite Hgap, Hi in Hexts.
    injection Hexts as <-. unfold xrange.
    by rewrite seqZ_nil by lia.
Qed.

(** X4. Every extension of a reachable hypothesis translates at least one
    more source word: its state is assigned to a later stack, and to one
    of the stacks that exist. *)
Theorem extension_goes_to_later_stack f (h : hypothesis C) extensions
    (e : extension) :
  reachable lm tm f h →
  extend_state lm tm (h_state h) f = Ok extensions → e ∈ extensions →
  0 ≤ assign_stack (h_state h) < assign_stack e.1.1 ∧
  assign_stack e.1.1 ≤ len f.
Proof.
  intros Hh Hexts He.
  pose proof (reachable_state_ok lm tm f h Hh) as Hok.
  destruct (extend_state_ok lm tm _ f _ e Hok Hexts He) as [Hok' Hlt].
  apply state_ok_assign_stack in Hok as [Hj _].
  apply state_ok_assign_stack in Hok' as [Hj' _]. lia.
Qed.

End GraphExtras.

(** ** More about the output *)

Lemma append_cons (x : ascii) (a b : string) :
  String x a +:+ b = String x (a +:+ b).
Proof. done. Qed.

Lemma string_app_assoc (a b c : string) : (a +:+ b) +:+ c = a +:+ (b +:+ c).
Proof.
  induction a as [|x a IH]; [done|]. by rewrite !append_cons, IH.
Qed.

(** A space at the end adds no word. *)
Lemma split_go_space_end (cur : list ascii) (a : string) :
  split_go cur (a +:+ " ") = split_go cur a.
Proof.
  revert cur. induction a as [|x a IH]; intros cur.
  - by destruct cur.
  - rewrite append_cons. simpl.
    destruct (is_space x); [destruct cur|]; by rewrite IH.
Qed.

(** The words before a space and the words after it. *)
Lemma split_go_app_space (cur : list ascii) (a b : string) :
  split_go cur ((a +:+ " ") +:+ b) = split_go cur a ++ split_go [] b.
Proof.
  revert cur. induction a as [|x a IH]; intros cur.
  - by destruct cur.
  - rewrite !append_cons. simpl.
    destruct (is_space x); [destruct cur|]; by rewrite IH.
Qed.

Section OutputExtras.

Context {C : Type} `{Countable C}.
Variable lm : LM C.
Variable tm : TM.

Lemma add_log_probs_state (st : C) (ph : phrase) (eos : bool) :
  (add_log_probs lm st ph eos).1 = lm_feed lm st (split (english ph)).
Proof.
  unfold add_log_probs, lm_feed.
  generalize (phrase_logprob ph) as lp. revert st.
  induction (split (english ph)) as [|w ws IH] using rev_ind; intros st lp.
  - done.
  - rewrite !foldl_snoc. specialize (IH st lp).
    destruct (foldl _ (st, lp) ws) as [st' lp']. simpl in *.
    rewrite <- IH. by destruct (lm_score lm st' w).
Qed.

(** The context and score of an extension are those of [add_log_probs]
    for its phrase, with or without the end of the sentence. *)
Lemma extension_scored (s : state C) f extensions (e : extension) :
  extend_state lm tm s f = Ok extensions → e ∈ extensions →
  ∃ eos, lm_state e.1.1 = (add_log_probs lm (lm_state s) e.2 eos).1 ∧
         e.1.2 = (add_log_probs lm (lm_state s) e.2 eos).2.
Proof.
  intros Hexts He. destruct (gap s) as [[g0 g1]|] eqn:Hgap.
  - unfold extend_state in Hexts. rewrite Hgap in Hexts. simpl in *.
    destruct (tm !! pyslice f g0 g1) as [phs|]; [|done].
    injection Hexts as <-.
    apply list_elem_of_fmap in He as (ph & -> & _).
    rewrite yield_for_eq. by eexists.
  - destruct (elem_of_extend_state_no_gap lm tm s f Hgap)
      as (exts & Hexts' & Hin).
    rewrite Hexts in Hexts'. injection Hexts' as <-.
    apply Hin in He as [(j & phs & ph & _ & _ & _ & ->)
                       |(j & k & phs & ph & _ & _ & _ & _ & _ & ->)];
      rewrite yield_for_eq; by eexists.
Qed.

Lemma chain_phrases_new_hypothesis (h : hypothesis C) (e : extension) :
  chain_phrases (new_hypothesis h e) = chain_phrases h ++ [e.2].
Proof. by destruct e as [[? ?] ?]. Qed.

Lemma extract_english_new_hypothesis (depth : nat) (h : hypothesis C)
    (e : extension) :
  extract_english depth (new_hypothesis h e) =
  match depth with
  | O => Raise RuntimeError
  | S depth' =>
      out ←! extract_english depth' h; Ok (out +:+ english e.2 +:+ " ")
  end.
Proof. by destruct e as [[? ?] ?]. Qed.

Lemma extract_tm_logprob_new_hypothesis (depth : nat) (h : hypothesis C)
    (e : extension) :
  extract_tm_logprob depth (new_hypothesis h e) =
  match depth with
  | O => Raise RuntimeError
  | S depth' =>
      rest ←! extract_tm_logprob depth' h;
      Ok (phrase_logprob e.2 + rest)%float
  end.
Proof. by destruct e as [[? ?] ?]. Qed.

(** The text and the translation-model score of a hypothesis the decoder
    can build, phrase by phrase, when the recursion limit allows one call
    for every step of the chain; and [RuntimeError] otherwise. *)
Lemma output_spec f (h : hypothesis C) (depth : nat) :
  reachable lm tm f h →
  length (chain_phrases h) = length (ancestors h) ∧
  extract_english depth h =
    (if decide (length (ancestors h) ≤ depth)%nat
     then Ok (foldl (fun out ph => out +:+ english ph +:+ " ") EmptyString
                    (chain_phrases h))
     else Raise RuntimeError) ∧
  extract_tm_logprob depth h =
    (if decide (length (ancestors h) ≤ depth)%nat
     then Ok (foldl (fun rest ph => (phrase_logprob ph + rest)%float)
                    0%float (chain_phrases h))
     else Raise RuntimeError).
Proof.
  intros Hh. revert depth.
  induction Hh as [|h exts e _ IH _ _]; intros depth.
  - simpl. destruct (decide (0 ≤ depth)%nat); [done|lia].
  - rewrite chain_phrases_new_hypothesis, ancestors_new_hypothesis,
      extract_english_new_hypothesis, extract_tm_logprob_new_hypothesis,
      !foldl_snoc, length_app.
    simpl length. destruct depth as [|depth].
    + destruct (IH 0%nat) as (IHlen & _).
      destruct (decide (S (length (ancestors h)) ≤ 0)%nat); [lia|].
      split; [lia|done].
    + destruct (IH depth) as (IHlen & -> & ->).
      split; [lia|].
      destruct (decide (length (ancestors h) ≤ depth)%nat),
               (decide (S (length (ancestors h)) ≤ S depth)%nat);
        try lia; done.
Qed.

(** A chain has at most as many steps as its hypothesis has translated
    words. *)
Lemma ancestors_bound f (h : hypothesis C) :
  reachable lm tm f h →
  Z.of_nat (length (ancestors h)) ≤ assign_stack (h_state h) ≤ len f.
Proof.
  intros Hh. split.
  - induction Hh as [|h exts e Hh IH Hexts He]; [done|].
    rewrite ancestors_new_hypothesis, h_state_new_hypothesis.
    pose proof (reachable_state_ok lm tm f h Hh) as Hok.
    destruct (extend_state_ok lm tm _ f _ e Hok Hexts He) as [_ Hlt].
    simpl length. lia.
  - by apply (reachable_state_ok lm), state_ok_assign_stack in Hh as [[_ ?] _].
Qed.

(** X5. On a hypothesis the decoder can build, the output functions raise
    no [AttributeError].  The chain has at most [len f] steps.  When the
    interpreter lets one call nest for every step of the chain, the text
    is the target text of the phrases of the chain, root first, each
    followed by a space; the translation-model score adds the scores of
    these phrases, each new one on the left; and the report holds the
    total score, that score, and their difference.  When the chain has
    more steps than that, all three raise [RuntimeError]. *)
Theorem output_of_reachable f (h : hypothesis C) (depth : nat) :
  reachable lm tm f h →
  length (chain_phrases h) = length (ancestors h) ∧
  Z.of_nat (length (ancestors h)) ≤ len f ∧
  ((length (ancestors h) ≤ depth)%nat →
     extract_english depth h =
       Ok (foldl (fun out ph => out +:+ english ph +:+ " ") EmptyString
                 (chain_phrases h)) ∧
     ∃ tm_logprob,
       tm_logprob = foldl (fun rest ph => (phrase_logprob ph + rest)%float)
                          0%float (chain_phrases h) ∧
       extract_tm_logprob depth h = Ok tm_logprob ∧
       score_report depth h =
         Ok ((logprob h - tm_logprob)%float, tm_logprob, logprob h)) ∧
  ((depth < length (ancestors h))%nat →
     extract_english depth h = Raise RuntimeError ∧
     extract_tm_logprob depth h = Raise RuntimeError ∧
     score_report depth h = Raise RuntimeError).
Proof.
  intros Hh. destruct (output_spec f h depth Hh) as (Hlen & Heng & Htm).
  pose proof (ancestors_bound f h Hh) as Hbound.
  split; [done|]. split; [lia|]. unfold score_report. rewrite Heng, Htm.
  destruct (decide (length (ancestors h) ≤ depth)%nat); split; try lia.
  - intros _. split; [done|]. eexists. by split.
  - by intros _.
Qed.

(** The history of a hypothesis the decoder can build is the history
    after the words of its text. *)
Lemma lm_state_follows_text f (h : hypothesis C) :
  reachable lm tm f h →
  let text := foldl (fun out ph => out +:+ english ph +:+ " ") EmptyString
                    (chain_phrases h) in
  (text = EmptyString ∨ ∃ text', text = text' +:+ " ") ∧
  lm_state (h_state h) = lm_feed lm (lm_begin lm) (split text).
Proof.
  induction 1 as [|h exts e _ (Hshape & Hstate) Hexts He]; simpl.
  - split; [by left|done].
  - destruct (extension_scored _ _ _ _ Hexts He) as (eos & Hlm & _).
    rewrite chain_phrases_new_hypothesis, foldl_snoc, h_state_new_hypothesis.
    set (text := foldl _ EmptyString (chain_phrases h)) in *.
    split.
    { right. exists (text +:+ english e.2). by rewrite string_app_assoc. }
    rewrite Hlm, add_log_probs_state, Hstate. unfold lm_feed, split.
    destruct Hshape as [->|[text' ->]].
    + change (EmptyString +:+ english e.2 +:+ " ") with (english e.2 +:+ " ").
      by rewrite split_go_space_end.
    + by rewrite split_go_app_space, !split_go_space_end, foldl_app.
Qed.

(** X6. Whenever [extract_english] returns the text of a hypothesis the
    decoder can build, the language-model history in the state of the
    hypothesis is the history after scoring, from [lm.begin()], the words
    of that text in order. *)
Theorem lm_state_follows_output f (h : hypothesis C) (depth : nat) out :
  reachable lm tm f h →
  extract_english depth h = Ok out →
  lm_state (h_state h) = lm_feed lm (lm_begin lm) (split out).
Proof.
  intros Hh Hout.
  destruct (output_spec f h depth Hh) as (_ & Heng & _).
  rewrite Heng in Hout.
  destruct (decide (length (ancestors h) ≤ depth)%nat); [|done].
  injection Hout as <-. by apply (lm_state_follows_text f h Hh).
Qed.

End OutputExtras.

(** ** More about recombination *)

Lemma ltb_irrefl (x : float) : (x <? x)%float = false.
Proof.
  destruct (x <? x)%float eqn:Hlt; [|done]. by rewrite (ltb_asym _ _ Hlt) in Hlt.
Qed.

Section RecombinationExtras.

Context {C : Type} `{Countable C}.

Abbreviation stack := (gmap (state C) (hypothesis C)).

(** What [recombine] leaves as it is. *)
Lemma recombine_frame_spec (stacks : list stack) st (new_h : hypothesis C) :
  match list_position stacks (assign_stack st) with
  | Raise e => e = IndexError ∧ recombine stacks st new_h = Raise IndexError
  | Ok pos =>
      ∃ stacks', recombine stacks st new_h = Ok stacks' ∧
        length stacks' = length stacks ∧
        (∀ k, k ≠ pos → stacks' !! k = stacks !! k) ∧
        (∀ st', st' ≠ st →
           (stacks' !!! pos) !! st' = (stacks !!! pos) !! st')
  end.
Proof.
  destruct (list_position stacks (assign_stack st)) as [pos|e] eqn:Hpos.
  - pose proof (list_position_lt _ _ _ Hpos) as Hlt.
    assert (∃ stacks',
      Ok (<[pos := <[st := new_h]> (stacks !!! pos)]> stacks)
        = Ok stacks' ∧
      length stacks' = length stacks ∧
      (∀ k, k ≠ pos → stacks' !! k = stacks !! k) ∧
      (∀ st', st' ≠ st →
         (stacks' !!! pos) !! st' = (stacks !!! pos) !! st')) as Hinsert.
    { eexists. split; [done|]. split; [by rewrite length_insert|]. split.
      - intros k Hk. by rewrite list_lookup_insert_ne.
      - intros st' Hst'.
        by rewrite list_lookup_total_insert_eq, lookup_insert_ne. }
    unfold recombine. rewrite Hpos. simpl.
    destruct ((stacks !!! pos) !! st) as [old|]; [|done].
    destruct (logprob old <? logprob new_h)%float; [done|].
    by exists stacks.
  - assert (e = IndexError) as ->.
    { unfold list_position in Hpos.
      by destruct (_ && _); [|injection Hpos as <-]. }
    unfold recombine. by rewrite Hpos.
Qed.

(** X7. [recombine] raises [IndexError] when the stack of the state does
    not exist.  Otherwise it returns stacks of the same number that differ
    from the old ones at most in the entry of the state in its stack. *)
Theorem recombine_frame (stacks : list stack) st (new_h : hypothesis C) :
  match list_position stacks (assign_stack st) with
  | Raise e => e = IndexError ∧ recombine stacks st new_h = Raise IndexError
  | Ok pos =>
      ∃ stacks', recombine stacks st new_h = Ok stacks' ∧
        length stacks' = length stacks ∧
        (∀ k, k ≠ pos → stacks' !! k = stacks !! k) ∧
        (∀ st', st' ≠ st →
           (stacks' !!! pos) !! st' = (stacks !!! pos) !! st')
  end.
Proof.
  pose proof (recombine_frame_spec stacks st new_h) as Hspec.
  destruct (list_position stacks (assign_stack st)) as [pos|e]; [|done].
  destruct Hspec as (stacks' & Hrec & Hlen & Hother & Hstates).
  by exists stacks'.
Qed.

(** X8. After [recombine] the stack has a hypothesis on file for the
    state: the new one, or the one that was on file before.  Its score is
    below neither the score of the new hypothesis nor the score that was
    on file: recombination never lowers the score on file for a state. *)
Theorem recombine_keeps_best (stacks : list stack) st
    (new_h : hypothesis C) pos :
  list_position stacks (assign_stack st) = Ok pos →
  ∃ stacks' kept,
    recombine stacks st new_h = Ok stacks' ∧
    (stacks' !!! pos) !! st = Some kept ∧
    (kept = new_h ∨ (stacks !!! pos) !! st = Some kept) ∧
    (logprob kept <? logprob new_h)%float = false ∧
    ∀ old, (stacks !!! pos) !! st = Some old →
      (logprob kept <? logprob old)%float = false.
Proof.
  intros Hpos. pose proof (list_position_lt _ _ _ Hpos) as Hlt.
  unfold recombine. rewrite Hpos. simpl.
  destruct ((stacks !!! pos) !! st) as [old|] eqn:Hold.
  - destruct (logprob old <? logprob new_h)%float eqn:Hcmp.
    + exists (<[pos := <[st := new_h]> (stacks !!! pos)]> stacks), new_h.
      split; [done|].
      rewrite list_lookup_total_insert_eq, lookup_insert_eq by done.
      split; [done|]. split; [by left|]. split; [apply ltb_irrefl|].
      intros ? [= <-]. by apply ltb_asym.
    + exists stacks, old. rewrite Hold.
      split; [done|]. split; [done|]. split; [by right|]. split; [done|].
      intros ? [= <-]. apply ltb_irrefl.
  - exists (<[pos := <[st := new_h]> (stacks !!! pos)]> stacks), new_h.
    split; [done|].
    rewrite list_lookup_total_insert_eq, lookup_insert_eq by done.
    split; [done|]. split; [by left|]. split; [apply ltb_irrefl|done].
Qed.

End RecombinationExtras.

(** ** More about the decoder driver *)

(** Without NaN, [max] returns an element that none exceeds. *)
Lemma max_go_maximal {A : Type} (value : A → float) (best : A) (l : list A) :
  Forall (fun a => (value a =? value a)%float = true) (best :: l) →
  ∀ x, x ∈ best :: l → (value (max_go value best l) <? value x)%float = false.
Proof.
  revert best. induction l as [|y l IH]; intros best Hnan x Hx; simpl.
  - apply list_elem_of_singleton in Hx as ->. apply ltb_irrefl.
  - apply Forall_cons in Hnan as [Hbest Hnan].
    pose proof Hnan as [Hy Hl]%Forall_cons.
    set (best' := if (value best <? value y)%float then y else best) in *.
    assert (Forall (fun a => (value a =? value a)%float = true) (best' :: l))
      as Hnan' by (constructor; [unfold best'; by destruct (_ <? _)%float|done]).
    pose proof (IH best' Hnan') as Hmax.
    set (r := max_go value best' l) in *.
    assert ((value r <? value best')%float = false) as Hr
      by (apply Hmax; left).
    assert ((value r <? value best)%float = false ∧
            (value r <? value y)%float = false) as [Hrb Hry].
    { unfold best' in Hr.
      destruct (value best <? value y)%float eqn:Hcmp.
      - split; [|done].
        destruct (value r <? value best)%float eqn:Hlt; [|done].
        destruct (ltb_cotrans _ (value y) _ Hlt Hy) as [?|Hyb]; [congruence|].
        by rewrite (ltb_asym _ _ Hyb) in Hcmp.
      - split; [done|].
        destruct (value r <? value y)%float eqn:Hlt; [|done].
        destruct (ltb_cotrans _ (value best) _ Hlt Hbest); congruence. }
    apply elem_of_cons in Hx as [->|Hx]; [done|].
    apply elem_of_cons in Hx as [->|Hx]; [done|].
    apply Hmax. by right.
Qed.

Lemma pyslice_nonpos {A : Type} (l : list A) (n : Z) :
  n ≤ 0 → (length l ≤ 1)%nat → pyslice l 0 n = [].
Proof.
  intros Hn Hl. unfold pyslice.
  rewrite (adjust_index_nonneg _ 0) by (unfold len; lia).
  rewrite (Z.min_l 0) by (unfold len; lia).
  assert (adjust_index (len l) n = 0) as ->.
  { destruct (decide (n = 0)) as [->|].
    - rewrite adjust_index_nonneg by (unfold len; lia).
      unfold len. lia.
    - rewrite adjust_index_neg by (unfold len; lia). unfold len. lia. }
  done.
Qed.

(** A loop whose body returns the state unchanged for every element
    returns the state unchanged. *)
Lemma for_each_unchanged {A B : Type} (body : A → B → result A) (a : A)
    (l : list B) :
  (∀ x, x ∈ l → body a x = Ok a) → for_each body a l = Ok a.
Proof.
  induction l as [|x l IH]; intros Hbody; simpl; [done|].
  rewrite Hbody by left. simpl. apply IH. intros y Hy. apply Hbody. by right.
Qed.

Section DriverExtras.

Context {C : Type} `{Countable C}.
Variable lm : LM C.
Variable tm : TM.
Variable opts_s : Z.
Variable itervalues : gmap (state C) (hypothesis C) → list (hypothesis C).
Hypothesis itervalues_perm :
  ∀ m : gmap (state C) (hypothesis C), itervalues m ≡ₚ (map_to_list m).*2.
Variable max_depth : nat.

Abbreviation stack := (gmap (state C) (hypothesis C)).

#[local] Instance same_upto_preorder n : PreOrder (same_upto (C:=C) n).
Proof.
  split; [by intros ? ? ?|].
  intros s1 s2 s3 H12 H23 k Hk. by rewrite H23, H12.
Qed.

Lemma itervalues_empty : itervalues ∅ = [].
Proof.
  apply Permutation_nil_r. by rewrite itervalues_perm, map_to_list_empty.
Qed.

Lemma prune_empty : prune opts_s itervalues ∅ = [].
Proof.
  unfold prune. rewrite itervalues_empty. simpl. unfold pyslice.
  by rewrite drop_nil, take_nil.
Qed.

(** What [decode] returns, in terms of the stacks. *)
Lemma decode_inv f :
  ∃ stacks (final : stack),
    decode_stacks lm tm opts_s itervalues f = Ok stacks ∧
    stacks_ok lm tm f stacks ∧
    stacks !! length f = Some final ∧
    decode lm tm opts_s itervalues f = py_max logprob (itervalues final).
Proof.
  destruct (decode_stacks_ok lm tm opts_s itervalues itervalues_perm f)
    as (stacks & Hdec & Hok).
  pose proof Hok as [Hlen _].
  destruct (lookup_lt_is_Some_2 stacks (length f)) as [final Hfinal]; [lia|].
  exists stacks, final. do 3 (split; [done|]).
  unfold decode. rewrite Hdec. simpl. unfold select_winner.
  rewrite list_position_last by (by destruct stacks).
  simpl. rewrite Hlen. simpl.
  by rewrite (list_lookup_total_correct _ _ _ Hfinal).
Qed.

(** X9. Decoding and printing raise nothing but [ValueError] and
    [RuntimeError].  The search raises [ValueError], and nothing else,
    exactly when the last stack is empty.  Otherwise the winner is a
    hypothesis of the last stack, its chain has at most [len f] steps, and
    its text is printed when the interpreter lets one call nest for every
    step of the chain; when the chain has more steps than that, printing
    raises [RuntimeError]. *)
Theorem decode_and_print_exceptions f :
  ∃ stacks (final : stack),
    decode_stacks lm tm opts_s itervalues f = Ok stacks ∧
    stacks !! length f = Some final ∧
    ((final = ∅ ∧
      decode lm tm opts_s itervalues f = Raise ValueError ∧
      translate lm tm opts_s itervalues max_depth f = Raise ValueError)
     ∨ (∃ st winner,
          final !! st = Some winner ∧
          decode lm tm opts_s itervalues f = Ok winner ∧
          Z.of_nat (length (ancestors winner)) ≤ len f ∧
          ((length (ancestors winner) ≤ max_depth)%nat →
           ∃ out, extract_english max_depth winner = Ok out ∧
                  translate lm tm opts_s itervalues max_depth f = Ok out) ∧
          ((max_depth < length (ancestors winner))%nat →
           translate lm tm opts_s itervalues max_depth f =
             Raise RuntimeError))).
Proof.
  destruct (decode_inv f) as (stacks & final & Hdec & [_ Hall] & Hfinal & Hmax).
  exists stacks, final. do 2 (split; [done|]).
  destruct (itervalues final) as [|h l] eqn:Hvals.
  - left. assert (final = ∅) as ->.
    { apply map_to_list_empty_iff, (fmap_nil_inv snd), Permutation_nil_r.
      by rewrite <- itervalues_perm, Hvals. }
    split; [done|]. unfold translate. by rewrite Hmax.
  - right.
    destruct (py_max_elem logprob (h :: l)) as (winner & Hwin & Hin); [done|].
    rewrite <- Hvals in Hin.
    apply (elem_of_itervalues _ itervalues_perm) in Hin as [st Hst].
    destruct (Hall _ _ _ _ Hfinal Hst) as (_ & _ & Hreach).
    destruct (output_spec lm tm f winner max_depth Hreach) as (_ & Hout & _).
    pose proof (ancestors_bound lm tm f winner Hreach) as Hbound.
    exists st, winner. split; [done|].
    rewrite Hmax. split; [done|]. split; [lia|].
    unfold translate. rewrite Hmax, Hwin. simpl. rewrite Hout.
    destruct (decide (length (ancestors winner) ≤ max_depth)%nat); split;
      try lia.
    + intros _. eexists. by split.
    + by intros _.
Qed.

(** X10. The winner has translated every position of the sentence exactly
    once, and, when no score in the last stack is NaN, no hypothesis of the
    last stack has a greater score. *)
Theorem winner_is_best_and_complete f winner :
  decode lm tm opts_s itervalues f = Ok winner →
  translated winner ≡ₚ xrange 0 (len f) ∧
  ∃ stacks (final : stack),
    decode_stacks lm tm opts_s itervalues f = Ok stacks ∧
    stacks !! length f = Some final ∧
    final !! h_state winner = Some winner ∧
    ((∀ st h, final !! st = Some h → (logprob h =? logprob h)%float = true) →
     ∀ st h, final !! st = Some h →
       (logprob winner <? logprob h)%float = false).
Proof.
  intros Hwin.
  destruct (decode_inv f) as (stacks & final & Hdec & [_ Hall] & Hfinal & Hmax).
  rewrite Hmax in Hwin.
  destruct (itervalues final) as [|h0 l] eqn:Hvals; [done|].
  injection Hwin as Hwin.
  assert (winner ∈ itervalues final) as Hin
    by (rewrite Hvals, <- Hwin; apply max_go_elem).
  apply (elem_of_itervalues _ itervalues_perm) in Hin as [st Hst].
  destruct (Hall _ _ _ _ Hfinal Hst) as (<- & Hassign & Hreach).
  destruct (translated_spec lm tm f winner Hreach) as (Hdup & Hcov & _).
  pose proof (reachable_state_ok lm tm f winner Hreach) as Hok.
  apply state_ok_assign_stack in Hok as [_ Hlast].
  destruct (Hlast Hassign) as [Hi Hgap].
  split.
  - apply NoDup_Permutation; [done|apply NoDup_seqZ|].
    intros p. rewrite Hcov, elem_of_xrange. unfold covers.
    rewrite Hi, Hgap. tauto.
  - exists stacks, final. do 3 (split; [done|]).
    intros Hnan st h Hh. rewrite <- Hwin.
    apply max_go_maximal.
    + rewrite <- Hvals. apply Forall_forall.
      intros h' [st' Hst']%(elem_of_itervalues _ itervalues_perm). eauto.
    + rewrite <- Hvals. apply (elem_of_itervalues _ itervalues_perm). eauto.
Qed.

(** X11. The stacks are always built: there is one more than the sentence
    has words, and a hypothesis in the stack at position [idx] is filed
    under its own state, can be built from the root, and has translated
    exactly [idx] source positions, each once. *)
Theorem stacks_hold_words_translated f :
  ∃ stacks,
    decode_stacks lm tm opts_s itervalues f = Ok stacks ∧
    length stacks = S (length f) ∧
    ∀ (idx : nat) (stk : stack) st h,
      stacks !! idx = Some stk → stk !! st = Some h →
      h_state h = st ∧ reachable lm tm f h ∧
      NoDup (translated h) ∧ length (translated h) = idx.
Proof.
  destruct (decode_stacks_ok lm tm opts_s itervalues itervalues_perm f)
    as (stacks & Hdec & Hlen & Hall).
  exists stacks. do 2 (split; [done|]). intros idx stk st h Hstk Hst.
  destruct (Hall _ _ _ _ Hstk Hst) as (Hstate & Hassign & Hreach).
  destruct (translated_spec lm tm f h Hreach) as (Hdup & _ & Hcount).
  do 3 (split; [done|]). rewrite Hstate in Hcount. lia.
Qed.

(** *** A stack is complete when it is pruned *)

Lemma recombine_same_upto f (stacks : list stack) st (new_h : hypothesis C)
    (n : nat) :
  stacks_ok lm tm f stacks →
  reachable lm tm f new_h → h_state new_h = st →
  Z.of_nat n < assign_stack st →
  ∃ stacks', recombine stacks st new_h = Ok stacks' ∧
    stacks_ok lm tm f stacks' ∧ same_upto n stacks stacks'.
Proof.
  intros Hok Hnew Hst Hlt.
  destruct (recombine_ok lm tm f stacks st new_h Hok Hnew Hst)
    as (stacks' & Hrec & Hok' & _).
  exists stacks'. do 2 (split; [done|]).
  pose proof (recombine_frame_spec stacks st new_h) as Hframe.
  pose proof (reachable_state_ok lm tm f new_h Hnew) as Hstate.
  rewrite Hst in Hstate. apply state_ok_assign_stack in Hstate as [Hj _].
  destruct Hok as [Hlen _].
  rewrite list_position_ok in Hframe by (unfold len in *; lia).
  destruct Hframe as (stacks'' & Hrec' & _ & Hother & _).
  rewrite Hrec in Hrec'. injection Hrec' as <-.
  intros k Hk. apply Hother. lia.
Qed.

Lemma expand_same_upto f (stacks : list stack) (h : hypothesis C) (n : nat) :
  stacks_ok lm tm f stacks → reachable lm tm f h →
  assign_stack (h_state h) = Z.of_nat n →
  ∃ stacks', expand lm tm f stacks h = Ok stacks' ∧
    stacks_ok lm tm f stacks' ∧ same_upto n stacks stacks'.
Proof.
  intros Hstacks Hh Hn. unfold expand.
  pose proof (reachable_state_ok lm tm f h Hh) as Hstate.
  destruct (state_ok_extend_state lm tm f (h_state h) Hstate) as [exts Hexts].
  rewrite Hexts. simpl.
  destruct (for_each_grows (stacks_ok lm tm f) (fun e => e ∈ exts)
              (same_upto n) (fun _ _ => True)
              (fun stacks e => recombine stacks e.1.1 (new_hypothesis h e))
              exts stacks)
    as (stacks' & Hloop & Hok' & Hsame & _); [done| |done| |by eauto].
  - intros stacks1 e Hstacks1 He.
    destruct (recombine_same_upto f stacks1 e.1.1 (new_hypothesis h e) n)
      as (stacks2 & ? & ? & ?); [done| | | |by eauto].
    + by eapply reachable_extend.
    + apply h_state_new_hypothesis.
    + destruct (extend_state_ok lm tm _ f _ e Hstate Hexts He). lia.
  - by apply Forall_forall.
Qed.

Lemma process_stack_same_upto f (stacks : list stack) (n : nat) :
  stacks_ok lm tm f stacks →
  ∃ stacks', process_stack lm tm opts_s itervalues f stacks n = Ok stacks' ∧
    stacks_ok lm tm f stacks' ∧ same_upto n stacks stacks'.
Proof.
  intros Hstacks. unfold process_stack.
  destruct (for_each_grows (stacks_ok lm tm f)
              (fun h => reachable lm tm f h ∧
                        assign_stack (h_state h) = Z.of_nat n)
              (same_upto n) (fun _ _ => True)
              (expand lm tm f)
              (prune opts_s itervalues (stacks !!! n)) stacks)
    as (stacks' & Hloop & Hok' & Hsame & _); [done| |done| |by eauto].
  - intros stacks1 h Hstacks1 [Hh Hn].
    destruct (expand_same_upto f stacks1 h n) as (? & ? & ? & ?); by eauto.
  - apply Forall_forall. intros h [st Hst]%(elem_of_prune _ _ itervalues_perm).
    destruct (decide (n < length stacks)%nat) as [Hlt|Hge].
    + destruct (lookup_lt_is_Some_2 stacks n Hlt) as [stk Hstk].
      rewrite (list_lookup_total_correct _ _ _ Hstk) in Hst.
      destruct Hstacks as [_ Hall].
      by destruct (Hall n stk st h Hstk Hst) as (<- & ? & ?).
    + rewrite list_lookup_total_alt, lookup_ge_None_2 in Hst by lia. done.
Qed.

(** X12. However far the loop over the stacks has come, what remains of it
    returns, and leaves the stack at the position it starts from and the
    stacks before it as they are: no hypothesis is added to a stack after
    the stack has been pruned and expanded. *)
Theorem processed_stacks_are_final f (stacks : list stack) (n k : nat) :
  stacks_ok lm tm f stacks →
  ∃ stacks',
    for_each (process_stack lm tm opts_s itervalues f) stacks (seq n k)
      = Ok stacks' ∧
    stacks_ok lm tm f stacks' ∧
    ∀ m, (m ≤ n)%nat → stacks' !! m = stacks !! m.
Proof.
  revert n stacks. induction k as [|k IH]; intros n stacks Hok; simpl.
  - by exists stacks.
  - destruct (process_stack_same_upto f stacks n Hok)
      as (stacks1 & -> & Hok1 & Hsame1).
    simpl. destruct (IH (S n) stacks1 Hok1) as (stacks' & Hloop & Hok' & Hsame).
    exists stacks'. do 2 (split; [done|]).
    intros m Hm. rewrite Hsame by lia. by apply Hsame1.
Qed.

(** *** Decoding that cannot start *)

Lemma initial_stacks_lookup f (idx : nat) :
  (0 < idx)%nat → initial_stacks lm f !!! idx = (∅ : stack).
Proof.
  intros Hidx. unfold initial_stacks.
  rewrite list_lookup_total_insert_ne by lia.
  destruct (decide (idx < length (((fun _ => ∅) <$> f) ++ [∅ : stack]))%nat)
    as [Hlt|Hge].
  - destruct (lookup_lt_is_Some_2 _ _ Hlt) as [stk Hstk].
    rewrite (list_lookup_total_correct _ _ _ Hstk).
    apply list_elem_of_lookup_2 in Hstk.
    apply elem_of_app in Hstk as [Hin|Hin].
    + by apply list_elem_of_fmap in Hin as (? & -> & _).
    + by apply list_elem_of_singleton in Hin.
  - by rewrite list_lookup_total_alt, lookup_ge_None_2 by lia.
Qed.

Lemma initial_stacks_first f :
  initial_stacks lm f !!! 0%nat = ({[ initial_state lm := root lm ]} : stack).
Proof.
  unfold initial_stacks.
  rewrite list_lookup_total_insert_eq
    by (rewrite length_app, length_fmap; simpl; lia).
  destruct f; simpl; by rewrite insert_empty.
Qed.

(** If expanding the first stack changes nothing, a sentence that is not
    empty has no winner. *)
Lemma decode_stuck f :
  f ≠ [] →
  process_stack lm tm opts_s itervalues f (initial_stacks lm f) 0
    = Ok (initial_stacks lm f) →
  decode lm tm opts_s itervalues f = Raise ValueError.
Proof.
  intros Hf Hfirst.
  assert (decode_stacks lm tm opts_s itervalues f = Ok (initial_stacks lm f))
    as Hdec.
  { rewrite decode_stacks_positions. apply for_each_unchanged.
    intros idx _. destruct idx as [|idx]; [done|].
    unfold process_stack.
    by rewrite initial_stacks_lookup, prune_empty by lia. }
  destruct (decode_inv f) as (stacks & final & Hdec' & _ & Hfinal & ->).
  rewrite Hdec in Hdec'. injection Hdec' as <-.
  apply list_lookup_total_correct in Hfinal.
  rewrite initial_stacks_lookup in Hfinal by (destruct f; simpl; [done|lia]).
  by rewrite <- Hfinal, itervalues_empty.
Qed.

(** X13. With a maximum stack size of zero or less no hypothesis is ever
    expanded, and decoding a sentence that is not empty raises
    [ValueError]. *)
Theorem decode_without_beam f :
  opts_s ≤ 0 → f ≠ [] →
  decode lm tm opts_s itervalues f = Raise ValueError.
Proof.
  intros Hs Hf. apply decode_stuck; [done|].
  unfold process_stack, prune. rewrite initial_stacks_first.
  rewrite pyslice_nonpos; [done..|].
  rewrite (Permutation_length (sorted_perm _ _)), itervalues_perm,
    map_to_list_singleton. done.
Qed.

(** X14. If no span that starts at the first word has a table entry,
    which is what the copy fallback prevents, the root has no extension
    and decoding a sentence that is not empty raises [ValueError]. *)
Theorem decode_without_first_phrase f :
  f ≠ [] →
  (∀ j, 0 < j ≤ len f → tm !! pyslice f 0 j = None) →
  extend_state lm tm (initial_state lm) f = Ok [] ∧
  decode lm tm opts_s itervalues f = Raise ValueError.
Proof.
  intros Hf Hnone.
  assert (extend_state lm tm (initial_state lm) f = Ok []) as Hexts.
  { destruct (elem_of_extend_state_no_gap lm tm (initial_state lm) f)
      as (exts & Hexts & Hin); [done|].
    rewrite Hexts. f_equal. destruct exts as [|e exts]; [done|].
    assert (e ∈ e :: exts) as He by left.
    apply Hin in He as [(j & phs & ph & Hj & Htm & _)
                       |(j & k & phs & ph & Hj & [? Htm] & _)];
      simpl in *; by rewrite Hnone in Htm. }
  split; [done|]. apply decode_stuck; [done|].
  unfold process_stack. apply for_each_unchanged.
  intros h [st Hst]%(elem_of_prune _ _ itervalues_perm).
  rewrite initial_stacks_first in Hst.
  apply lookup_singleton_Some in Hst as [_ <-].
  unfold expand. change (h_state (root lm)) with (initial_state lm).
  by rewrite Hexts.
Qed.

End DriverExtras.

(** ** More about the copy fallback *)

(** X15. The copy fallback keeps every entry of the table, gives every
    token of the input without a one-token entry the single candidate
    that copies it with log-probability 0, and adds nothing else. *)
Theorem fallback_table (tm : TM) (french : list (list string)) :
  (∀ span phrases,
      tm !! span = Some phrases →
      inject_oov tm french !! span = Some phrases) ∧
  (∀ w, w ∈ concat french → tm !! [w] = None →
      inject_oov tm french !! [w] = Some [Phrase w 0%float]) ∧
  (∀ span phrases,
      inject_oov tm french !! span = Some phrases →
      tm !! span = Some phrases ∨
      ∃ w, span = [w] ∧ w ∈ concat french ∧ tm !! [w] = None ∧
           phrases = [Phrase w 0%float]).
Proof.
  split; [|split].
  - intros span phrases Hspan. by rewrite inject_oov_lookup, Hspan.
  - intros w Hw Hnone. rewrite inject_oov_lookup, Hnone.
    by destruct (decide (w ∈ concat french)).
  - intros span phrases. rewrite inject_oov_lookup.
    destruct (tm !! span) as [phs|] eqn:Hspan; [by left|].
    destruct span as [|w [|]]; try done.
    destruct (decide (w ∈ concat french)); [|done].
    intros [= <-]. right. by exists w.
Qed.

(** X16. Running the copy fallback a second time changes nothing. *)
Theorem fallback_idempotent (tm : TM) (french : list (list string)) :
  inject_oov (inject_oov tm french) french = inject_oov tm french.
Proof.
  apply map_eq. intros span. rewrite (inject_oov_lookup (inject_oov _ _)).
  rewrite (inject_oov_lookup tm).
  destruct (tm !! span) as [phs|]; [done|].
  destruct span as [|w [|]]; try done.
  by destruct (decide (w ∈ concat french)).
Qed.

(** X17. The table after the copy fallback depends on the tokens that
    occur in the input, not on their order, their number or the sentences
    they are in. *)
Theorem fallback_depends_on_tokens (tm : TM)
    (french french' : list (list string)) :
  (∀ w, w ∈ concat french ↔ w ∈ concat french') →
  inject_oov tm french = inject_oov tm french'.
Proof.
  intros Hsame. apply map_eq. intros span. rewrite !inject_oov_lookup.
  destruct (tm !! span) as [phs|]; [done|].
  destruct span as [|w [|]]; try done.
  by apply decide_ext.
Qed.

(** X18. After the copy fallback, with a maximum stack size of at least
    one and a loaded table without empty entries, every sentence of the
    input has a winner, which covers the sentence and has no gap; and its
    text is printed when the interpreter lets one call nest for every word
    of the sentence. *)
Theorem fallback_makes_decoding_succeed {C : Type} `{Countable C}
    (lm : LM C) (tm : TM) (opts_s : Z)
    (itervalues : gmap (state C) (hypothesis C) → list (hypothesis C))
    (max_depth : nat) (french : list (list string)) (f : list string) :
  (∀ m, itervalues m ≡ₚ (map_to_list m).*2) →
  1 ≤ opts_s →
  (∀ span phrases, tm !! span = Some phrases → phrases ≠ []) →
  f ∈ french →
  ∃ winner,
    decode lm (inject_oov tm french) opts_s itervalues f = Ok winner ∧
    i (h_state winner) = len f ∧ gap (h_state winner) = None ∧
    ((length f ≤ max_depth)%nat →
     ∃ out,
       translate lm (inject_oov tm french) opts_s itervalues max_depth f =
         Ok out).
Proof.
  intros Hperm Hbeam Htm Hf.
  destruct (decode_succeeds lm (inject_oov tm french) opts_s itervalues
              Hperm f Hbeam)
    as (stacks & final & winner & Hdec & Hfinal & _ & Hwin & Hin & Hi & Hgap).
  - intros w Hw. by eapply inject_oov_covers.
  - by apply inject_oov_inhabited.
  - apply (elem_of_itervalues _ Hperm) in Hin as [st Hst].
    destruct (decode_stacks_ok lm (inject_oov tm french) opts_s itervalues
                Hperm f) as (stacks' & Hdec' & _ & Hall).
    rewrite Hdec in Hdec'. injection Hdec' as <-.
    destruct (Hall _ _ _ _ Hfinal Hst) as (_ & _ & Hreach).
    destruct (output_spec lm _ f winner max_depth Hreach) as (_ & Hout & _).
    pose proof (ancestors_bound lm _ f winner Hreach) as Hbound.
    exists winner. do 3 (split; [done|]). intros Hdepth.
    unfold translate. rewrite Hwin. simpl. rewrite Hout.
    unfold len in Hbound.
    destruct (decide (length (ancestors winner) ≤ max_depth)%nat); [|lia].
    by eexists.
Qed.

(** ** The further theorems at the small instance *)

(** Witness of X1: the step that fills the gap after [B]. *)
Lemma chain_phrases_from_table_witness :
  reachable lm1 tm1 f1 h_fill ∧ predecessor h_fill = Some h_skip ∧
  reachable lm1 tm1 f1 h_skip ∧
  ∃ ph phrases,
    h_phrase h_fill = Some ph ∧
    tm1 !! pyslice f1 (step_span (h_state h_skip) (h_state h_fill)).1
                      (step_span (h_state h_skip) (h_state h_fill)).2
      = Some phrases ∧
    ph ∈ phrases.
Proof.
  split; [apply h_fill_reachable|]. split; [reflexivity|].
  apply (chain_phrases_from_table lm1 tm1 f1 h_fill h_skip h_fill_reachable).
  reflexivity.
Defined.

(** Witness of X2: [B] first, then [A]: positions 1 and 0. *)
Lemma translated_covers_witness :
  reachable lm1 tm1 f1 h_fill ∧
  translated h_fill = [1; 0] ∧
  NoDup (translated h_fill) ∧
  (∀ p, p ∈ translated h_fill ↔ covers (h_state h_fill) p) ∧
  Z.of_nat (length (translated h_fill)) = assign_stack (h_state h_fill).
Proof.
  split; [apply h_fill_reachable|]. split; [reflexivity|].
  apply (translated_covers lm1 tm1 f1 h_fill h_fill_reachable).
Defined.

(** Witness of X3: the extensions after [A B], which complete the sentence. *)
Lemma end_of_sentence_on_completion_witness :
  reachable lm1 tm1 f1 h_ab_joint ∧
  ∃ extensions,
    extend_state lm1 tm1 (h_state h_ab_joint) f1 = Ok extensions ∧
    extensions ≠ [] ∧
    ∀ e : extension, e ∈ extensions →
      lm_state e.1.1 =
        (add_log_probs lm1 (lm_state (h_state h_ab_joint)) e.2
           (bool_decide (assign_stack e.1.1 = len f1))).1 ∧
      e.1.2 =
        (add_log_probs lm1 (lm_state (h_state h_ab_joint)) e.2
           (bool_decide (assign_stack e.1.1 = len f1))).2.
Proof.
  split; [apply h_ab_joint_reachable|].
  eexists. split; [vm_compute; reflexivity|]. split; [discriminate|].
  eapply (end_of_sentence_on_completion lm1 tm1 f1 h_ab_joint _
            h_ab_joint_reachable).
  vm_compute. reflexivity.
Defined.

(** Witness of X4: the step that fills the gap after [B]. *)
Lemma extension_goes_to_later_stack_witness :
  reachable lm1 tm1 f1 h_skip ∧
  extend_state lm1 tm1 (h_state h_skip) f1 =
    Ok [(State 2 None ["A"%string], (-1.5)%float, Phrase "A" (-0.5)%float)] ∧
  0 ≤ assign_stack (h_state h_skip) < assign_stack (h_state h_fill) ∧
  assign_stack (h_state h_fill) ≤ len f1.
Proof.
  split; [apply h_skip_reachable|]. split; [vm_compute; reflexivity|].
  apply (extension_goes_to_later_stack lm1 tm1 f1 h_skip
           [(State 2 None ["A"%string], (-1.5)%float, Phrase "A" (-0.5)%float)]
           (State 2 None ["A"%string], (-1.5)%float, Phrase "A" (-0.5)%float)
           h_skip_reachable).
  - vm_compute. reflexivity.
  - left.
Defined.

(** Witness of X5: the text and the scores of [B A], with room for 900
    nested calls. *)
Lemma output_of_reachable_witness :
  reachable lm1 tm1 f1 h_fill ∧
  (length (ancestors h_fill) ≤ 900)%nat ∧
  extract_english 900 h_fill = Ok "B A "%string ∧
  score_report 900 h_fill = Ok ((-2)%float, (-0.5)%float, (-2.5)%float).
Proof.
  assert (length (ancestors h_fill) ≤ 900)%nat as Hdepth by (simpl; lia).
  split; [apply h_fill_reachable|]. split; [exact Hdepth|].
  destruct (output_of_reachable lm1 tm1 f1 h_fill 900 h_fill_reachable)
    as (_ & _ & Hok & _).
  destruct (Hok Hdepth) as (Heng & tm_logprob & -> & _ & Hrep).
  split; [exact Heng|exact Hrep].
Defined.

(** Witness of X6: the history after [B A]. *)
Lemma lm_state_follows_output_witness :
  reachable lm1 tm1 f1 h_fill ∧
  extract_english 900 h_fill = Ok "B A "%string ∧
  lm_state (h_state h_fill) =
    lm_feed lm1 (lm_begin lm1) (split "B A "%string).
Proof.
  split; [apply h_fill_reachable|]. split; [reflexivity|].
  apply (lm_state_follows_output lm1 tm1 f1 h_fill 900 "B A "%string
           h_fill_reachable).
  reflexivity.
Defined.

(** Witness of X8: the first hypothesis for [s_ab]. *)
Lemma recombine_keeps_best_witness :
  list_position empty_stacks (assign_stack s_ab) = Ok 2%nat ∧
  ∃ stacks' kept,
    recombine empty_stacks s_ab h_ab_joint = Ok stacks' ∧
    (stacks' !!! 2%nat) !! s_ab = Some kept ∧
    (kept = h_ab_joint ∨ (empty_stacks !!! 2%nat) !! s_ab = Some kept) ∧
    (logprob kept <? logprob h_ab_joint)%float = false ∧
    ∀ old, (empty_stacks !!! 2%nat) !! s_ab = Some old →
      (logprob kept <? logprob old)%float = false.
Proof.
  split; [reflexivity|].
  apply (recombine_keeps_best empty_stacks s_ab h_ab_joint 2). reflexivity.
Defined.

(** Witness of X9: the table whose entry for [a b] is empty, with room
    for 900 nested calls. *)
Lemma decode_and_print_exceptions_witness :
  (∀ m, itervalues1 m ≡ₚ (map_to_list m).*2) ∧
  ∃ stacks final,
    decode_stacks lm1 tm2 1 itervalues1 f1 = Ok stacks ∧
    stacks !! length f1 = Some final ∧
    ((final = ∅ ∧
      decode lm1 tm2 1 itervalues1 f1 = Raise ValueError ∧
      translate lm1 tm2 1 itervalues1 900 f1 = Raise ValueError)
     ∨ (∃ st winner,
          final !! st = Some winner ∧
          decode lm1 tm2 1 itervalues1 f1 = Ok winner ∧
          Z.of_nat (length (ancestors winner)) ≤ len f1 ∧
          ((length (ancestors winner) ≤ 900)%nat →
           ∃ out, extract_english 900 winner = Ok out ∧
                  translate lm1 tm2 1 itervalues1 900 f1 = Ok out) ∧
          ((900 < length (ancestors winner))%nat →
           translate lm1 tm2 1 itervalues1 900 f1 = Raise RuntimeError))).
Proof.
  split; [apply itervalues1_perm|].
  apply (decode_and_print_exceptions lm1 tm2 1 itervalues1
           itervalues1_perm 900 f1).
Defined.

(** Witness of X10: [a b c] with a beam of two hypotheses. *)
Lemma winner_is_best_and_complete_witness :
  (∀ m, itervalues1 m ≡ₚ (map_to_list m).*2) ∧
  ∃ winner,
    decode lm1 tm1 2 itervalues1 f1 = Ok winner ∧
    translated winner ≡ₚ xrange 0 (len f1).
Proof.
  split; [apply itervalues1_perm|].
  eexists. split; [vm_compute; reflexivity|].
  eapply (winner_is_best_and_complete lm1 tm1 2 itervalues1 itervalues1_perm).
  vm_compute. reflexivity.
Defined.

(** Witness of X11: [a b c] with a beam of two hypotheses. *)
Lemma stacks_hold_words_translated_witness :
  (∀ m, itervalues1 m ≡ₚ (map_to_list m).*2) ∧
  ∃ stacks,
    decode_stacks lm1 tm1 2 itervalues1 f1 = Ok stacks ∧
    length stacks = S (length f1) ∧
    ∀ (idx : nat) stk st h,
      stacks !! idx = Some stk → stk !! st = Some h →
      h_state h = st ∧ reachable lm1 tm1 f1 h ∧
      NoDup (translated h) ∧ length (translated h) = idx.
Proof.
  split; [apply itervalues1_perm|].
  apply (stacks_hold_words_translated lm1 tm1 2 itervalues1 itervalues1_perm).
Defined.

(** Witness of X12: the whole loop for [a b c]. *)
Lemma processed_stacks_are_final_witness :
  (∀ m, itervalues1 m ≡ₚ (map_to_list m).*2) ∧
  stacks_ok lm1 tm1 f1 (initial_stacks lm1 f1) ∧
  ∃ stacks',
    for_each (process_stack lm1 tm1 2 itervalues1 f1) (initial_stacks lm1 f1)
             (seq 0 3) = Ok stacks' ∧
    stacks_ok lm1 tm1 f1 stacks' ∧
    ∀ m, (m ≤ 0)%nat → stacks' !! m = initial_stacks lm1 f1 !! m.
Proof.
  split; [apply itervalues1_perm|].
  split; [apply initial_stacks_ok|].
  apply (processed_stacks_are_final lm1 tm1 2 itervalues1 itervalues1_perm f1).
  apply initial_stacks_ok.
Defined.

(** Witness of X13: a maximum stack size of [-1]. *)
Lemma decode_without_beam_witness :
  (∀ m, itervalues1 m ≡ₚ (map_to_list m).*2) ∧
  -1 ≤ 0 ∧ f1 ≠ [] ∧
  decode lm1 tm1 (-1) itervalues1 f1 = Raise ValueError.
Proof.
  split; [apply itervalues1_perm|]. split; [lia|]. split; [discriminate|].
  apply (decode_without_beam lm1 tm1 (-1) itervalues1 itervalues1_perm f1);
    [lia|discriminate].
Defined.

(** Witness of X14: the table that knows only [b c], without the fallback. *)
Lemma decode_without_first_phrase_witness :
  (∀ m, itervalues1 m ≡ₚ (map_to_list m).*2) ∧
  f1 ≠ [] ∧
  (∀ j, 0 < j ≤ len f1 → tm3 !! pyslice f1 0 j = None) ∧
  extend_state lm1 tm3 (initial_state lm1) f1 = Ok [] ∧
  decode lm1 tm3 1 itervalues1 f1 = Raise ValueError.
Proof.
  assert (∀ j, 0 < j ≤ len f1 → tm3 !! pyslice f1 0 j = None) as Hnone.
  { intros j Hj. unfold len, f1 in Hj. simpl in Hj.
    assert (j = 1 ∨ j = 2 ∨ j = 3) as [-> | [-> | ->]] by lia;
      vm_compute; reflexivity. }
  split; [apply itervalues1_perm|]. split; [discriminate|].
  split; [exact Hnone|].
  apply (decode_without_first_phrase lm1 tm3 1 itervalues1 itervalues1_perm f1);
    [discriminate|exact Hnone].
Defined.

(** Witness of X17: two inputs with the tokens [a], [b] and [c]. *)
Lemma fallback_depends_on_tokens_witness :
  (∀ w, w ∈ concat french1 ↔ w ∈ concat french2) ∧
  inject_oov tm3 french1 = inject_oov tm3 french2.
Proof.
  assert (∀ w, w ∈ concat french1 ↔ w ∈ concat french2) as Hsame.
  { intros w. unfold french1, french2, f1. simpl.
    rewrite !elem_of_cons, elem_of_nil. tauto. }
  split; [exact Hsame|].
  apply (fallback_depends_on_tokens tm3 french1 french2 Hsame).
Defined.

Lemma tm3_inhabited span phrases : tm3 !! span = Some phrases → phrases ≠ [].
Proof.
  intros Hin%elem_of_list_to_map_2.
  repeat (apply elem_of_cons in Hin as [[= -> ->]|Hin]); try done.
  by apply elem_of_nil in Hin.
Defined.

(** Witness of X18: the table that knows only [b c], before and after the
    fallback, with room for 900 nested calls. *)
Lemma fallback_makes_decoding_succeed_witness :
  (∀ m, itervalues1 m ≡ₚ (map_to_list m).*2) ∧
  1 ≤ 1 ∧
  (∀ span phrases, tm3 !! span = Some phrases → phrases ≠ []) ∧
  f1 ∈ french1 ∧
  (length f1 ≤ 900)%nat ∧
  decode lm1 tm3 1 itervalues1 f1 = Raise ValueError ∧
  ∃ winner,
    decode lm1 (inject_oov tm3 french1) 1 itervalues1 f1 = Ok winner ∧
    i (h_state winner) = len f1 ∧ gap (h_state winner) = None ∧
    ∃ out,
      translate lm1 (inject_oov tm3 french1) 1 itervalues1 900 f1 = Ok out.
Proof.
  assert (length f1 ≤ 900)%nat as Hdepth by (simpl; lia).
  split; [apply itervalues1_perm|]. split; [lia|].
  split; [exact tm3_inhabited|]. split; [left|]. split; [exact Hdepth|].
  split; [vm_compute; reflexivity|].
  destruct (fallback_makes_decoding_succeed lm1 tm3 1 itervalues1 900
              french1 f1 itervalues1_perm)
    as (winner & Hwin & Hi & Hgap & Hout); [lia|exact tm3_inhabited|left|].
  exists winner. do 3 (split; [done|]). exact (Hout Hdepth).
Defined.
